(** * li-analyzer: lead generation from LinkedIn connections

    A shallow embedding of [gemini_analyze.py]: the helper functions
    [clean_market_cap], [preprocess_company_name] and
    [assign_seniority_score], and the main script's filtering, matching
    and sorting steps.

    Python [str] values are modelled as lists of characters restricted to
    the ASCII range (code points 0..127); the character classes below are
    the ASCII restrictions of Python's Unicode-aware ones.  Python [int]
    is [Z]; Python [float] is IEEE 754 binary64, modelled here by the
    executable specification [SpecFloat] at precision 53.  The scorer of
    the thefuzz library is a parameter of the matching step, and pandas'
    [sort_values] is a merge sort on the two sort keys. *)

From Stdlib Require Import ZArith List Ascii String Bool Lia.
From Stdlib Require Import Floats.SpecFloat.
From Stdlib Require Import Sorting.Sorted.
From stdpp Require Import base gmap strings sorting.
Import ListNotations.
Open Scope Z_scope.

(** ** Python strings *)

Module PyStr.

Definition str := list ascii.

(** A string literal of the source. *)
Definition py (s : string) : str := list_ascii_of_string s.

Definition code (c : ascii) : N := N_of_ascii c.

Definition in_range (lo hi : N) (c : ascii) : bool :=
  ((lo <=? code c) && (code c <=? hi))%N.

Definition is_ascii (c : ascii) : bool := (code c <? 128)%N.

Definition ascii_only (s : str) : Prop := Forall (fun c => is_ascii c = true) s.

Definition is_upper (c : ascii) : bool := in_range 65 90 c.
Definition is_lower (c : ascii) : bool := in_range 97 122 c.
Definition is_digit (c : ascii) : bool := in_range 48 57 c.

(** [\w] of the [re] module. *)
Definition is_word (c : ascii) : bool :=
  is_upper c || is_lower c || is_digit c || (code c =? 95)%N.

(** [str.isspace] on one character, which is also [\s]: TAB, LF, VT, FF,
    CR, the separators FS, GS, RS, US and the space. *)
Definition is_space (c : ascii) : bool :=
  in_range 9 13 c || in_range 28 32 c.

Definition lower_char (c : ascii) : ascii :=
  if is_upper c then ascii_of_N (code c + 32) else c.

Definition upper_char (c : ascii) : ascii :=
  if is_lower c then ascii_of_N (code c - 32) else c.

(** [s.lower()] and [s.upper()] *)
Definition lower (s : str) : str := map lower_char s.
Definition upper (s : str) : str := map upper_char s.

Fixpoint lstrip (s : str) : str :=
  match s with
  | c :: s' => if is_space c then lstrip s' else s
  | [] => []
  end.

Definition rstrip (s : str) : str := rev (lstrip (rev s)).

(** [s.strip()] *)
Definition strip (s : str) : str := rstrip (lstrip s).

(** [s.replace(c, '')] for a one-character [c] *)
Definition remove_char (c : ascii) (s : str) : str :=
  List.filter (fun x => negb (Ascii.eqb x c)) s.

(** [c in s] for a one-character [c] *)
Definition has_char (c : ascii) (s : str) : bool :=
  existsb (Ascii.eqb c) s.

Fixpoint startswith (p s : str) : bool :=
  match p, s with
  | [], _ => true
  | a :: p', b :: s' => Ascii.eqb a b && startswith p' s'
  | _ :: _, [] => false
  end.

(** [sub in s] *)
Fixpoint contains (sub s : str) : bool :=
  startswith sub s ||
  match s with
  | [] => false
  | _ :: s' => contains sub s'
  end.

Definition str_eqb (a b : str) : bool :=
  bool_decide (a = b).

End PyStr.
Import PyStr.

(** ** The two regular-expression idioms of the source *)

Module Re.

Definition word_opt (o : option ascii) : bool :=
  match o with
  | Some c => is_word c
  | None => false
  end.

(** [\b] between the character [prev] (absent at the start of the
    string) and the remaining input [rest]. *)
Definition word_boundary (prev : option ascii) (rest : str) : bool :=
  xorb (word_opt prev) (word_opt (hd_error rest)).

Definition last_opt (prev : option ascii) (kw : str) : option ascii :=
  match rev kw with
  | c :: _ => Some c
  | [] => prev
  end.

(** [\b kw \b] matched at the current position. *)
Definition match_word_at (prev : option ascii) (kw rest : str) : bool :=
  word_boundary prev rest && startswith kw rest &&
  word_boundary (last_opt prev kw) (skipn (length kw) rest).

Fixpoint search_word_from (prev : option ascii) (kw rest : str) : bool :=
  match_word_at prev kw rest ||
  match rest with
  | [] => false
  | c :: rest' => search_word_from (Some c) kw rest'
  end.

(** [re.search(r'\b' + re.escape(kw) + r'\b', s)] as a truth value. *)
Definition search_word (kw s : str) : bool := search_word_from None kw s.

(** The alternatives of the legal-suffix pattern
    [\b(inc|llc|ltd|corp|corporation|plc|gmbh|ag|co)\b\.?$], in order. *)
Definition LEGAL_SUFFIXES : list str :=
  [ py "inc"; py "llc"; py "ltd"; py "corp"; py "corporation";
    py "plc"; py "gmbh"; py "ag"; py "co" ].

(** [$]: the end of the string, or just before a newline that ends it. *)
Definition at_dollar (rest : str) : bool :=
  match rest with
  | [] => true
  | [c] => (code c =? 10)%N
  | _ => false
  end.

(** [\.?$], the dot taken first and given back when [$] then fails.
    The result is the input left after the match. *)
Definition match_dot_dollar (rest : str) : option str :=
  match rest with
  | c :: rest' =>
      if (code c =? 46)%N && at_dollar rest' then Some rest'
      else if at_dollar rest then Some rest else None
  | [] => Some []
  end.

(** One alternative followed by [\b\.?$]. *)
Definition match_alt (kw rest : str) : option str :=
  if startswith kw rest &&
     word_boundary (last_opt None kw) (skipn (length kw) rest)
  then match_dot_dollar (skipn (length kw) rest)
  else None.

Fixpoint match_alts (kws : list str) (rest : str) : option str :=
  match kws with
  | [] => None
  | kw :: kws' =>
      match match_alt kw rest with
      | Some r => Some r
      | None => match_alts kws' rest
      end
  end.

(** The whole pattern tried at the current position. *)
Definition match_suffix_at (prev : option ascii) (rest : str) : option str :=
  if word_boundary prev rest then match_alts LEGAL_SUFFIXES rest else None.

(** [re.sub(pattern, '', s)]: the leftmost match is dropped.  A match
    ends at [$], so what follows it is empty or the final newline, where
    the pattern cannot match again (lemma [no_second_match]); the scan
    stops there. *)
Fixpoint sub_suffix_from (prev : option ascii) (rest : str) : str :=
  match match_suffix_at prev rest with
  | Some r => r
  | None =>
      match rest with
      | [] => []
      | c :: rest' => c :: sub_suffix_from (Some c) rest'
      end
  end.

Definition sub_suffix (s : str) : str := sub_suffix_from None s.

(** [re.search] of the same pattern, as a truth value. *)
Fixpoint search_suffix_from (prev : option ascii) (rest : str) : bool :=
  match match_suffix_at prev rest with
  | Some _ => true
  | None =>
      match rest with
      | [] => false
      | c :: rest' => search_suffix_from (Some c) rest'
      end
  end.

Definition search_suffix (s : str) : bool := search_suffix_from None s.

(** [re.sub(r'[^\w\s]', '', s)] *)
Definition sub_punctuation (s : str) : str :=
  List.filter (fun c => is_word c || is_space c) s.

(** [re.sub(r'\s+', ' ', s)]: [in_run] tells that the previous character
    was white space, whose run has already been replaced. *)
Fixpoint sub_spaces_from (in_run : bool) (s : str) : str :=
  match s with
  | [] => []
  | c :: s' =>
      if is_space c
      then (if in_run then sub_spaces_from true s'
            else " "%char :: sub_spaces_from true s')
      else c :: sub_spaces_from false s'
  end.

Definition sub_spaces (s : str) : str := sub_spaces_from false s.

End Re.

(** ** Configuration *)

Definition MIN_MARKET_CAP_USD : Z := 50000000.
Definition MAX_MARKET_CAP_USD : Z := 100000000.

Definition SENIORITY_KEYWORDS : list (str * Z) :=
  [ (py "ceo", 100); (py "chief executive officer", 100);
    (py "cto", 95); (py "chief technology officer", 95);
    (py "cfo", 95); (py "chief financial officer", 95);
    (py "coo", 95); (py "chief operating officer", 95);
    (py "cio", 95); (py "chief information officer", 95);
    (py "cmo", 95); (py "chief marketing officer", 95);
    (py "chief", 90);
    (py "president", 85);
    (py "founder", 85);
    (py "partner", 80);
    (py "vp", 75); (py "vice president", 75);
    (py "evp", 78); (py "executive vice president", 78);
    (py "svp", 76); (py "senior vice president", 76);
    (py "principal", 70);
    (py "head", 65);
    (py "director", 60);
    (py "manager", 40);
    (py "lead", 30);
    (py "board member", 100);
    (py "investor", 100) ].

Definition NEGATIVE_KEYWORDS : list (str * Z) :=
  [ (py "assistant to", -20);
    (py "intern", -50);
    (py "former", -100);
    (py "ex-", -100) ].

Definition FUZZY_MATCH_THRESHOLD : Z := 100.
Definition MIN_SENIORITY_SCORE : Z := 60.

(** ** [assign_seniority_score] *)

Section Scorer.

Variable negative_keywords positive_keywords : list (str * Z).

(** The first loop: [score] after the negative keywords. *)
Definition penalty_loop (title_lower : str) : Z :=
  fold_left
    (fun score kp => if contains (fst kp) title_lower then score + snd kp else score)
    negative_keywords 0.

(** The second loop: [highest_positive_score]. *)
Definition positive_loop (title_lower : str) : Z :=
  fold_left
    (fun highest kv =>
       if Re.search_word (fst kv) title_lower then Z.max highest (snd kv) else highest)
    positive_keywords 0.

(** The value of [score] when the [return] statement is reached. *)
Definition raw_score_with (title : str) : Z :=
  let title_lower := lower title in
  let score := penalty_loop title_lower in
  let highest_positive_score := positive_loop title_lower in
  if score >? -50 then score + highest_positive_score else score.

Definition score_with (title : option str) : Z :=
  match title with
  | None => 0
  | Some t =>
      let score := raw_score_with t in
      if score >=? -50 then Z.max score 0 else score
  end.

(** The scorer as the specification words it. *)
Definition penaltyTotal (title : str) : Z :=
  fold_right Z.add 0
    (map snd (List.filter (fun kp => contains (fst kp) (lower title)) negative_keywords)).

Definition bestPositive (title : str) : Z :=
  fold_right Z.max 0
    (map snd (List.filter (fun kv => Re.search_word (fst kv) (lower title)) positive_keywords)).

Definition spec_rawScore (title : str) : Z :=
  if penaltyTotal title >? -50 then penaltyTotal title + bestPositive title
  else penaltyTotal title.

Definition spec_score (title : option str) : Z :=
  match title with
  | None => 0
  | Some t =>
      if spec_rawScore t >=? -50 then Z.max (spec_rawScore t) 0 else spec_rawScore t
  end.

End Scorer.

Definition raw_score : str -> Z := raw_score_with NEGATIVE_KEYWORDS SENIORITY_KEYWORDS.

Definition assign_seniority_score : option str -> Z :=
  score_with NEGATIVE_KEYWORDS SENIORITY_KEYWORDS.

(** ** [preprocess_company_name] *)

(** [pd.isna(name)] is the [None] case. *)
Definition preprocess_company_name (name : option str) : str :=
  match name with
  | None => []
  | Some n =>
      let name := lower n in
      let name := strip (Re.sub_suffix name) in
      let name := Re.sub_punctuation name in
      strip (Re.sub_spaces name)
  end.

(** ** Python floats *)

Module PyFloat.

Definition prec : Z := 53.
Definition emax : Z := 1024.

Definition float := spec_float.

Definition mul : float -> float -> float := SFmul prec emax.
Definition leb : float -> float -> bool := SFleb.
Definition ltb : float -> float -> bool := SFltb.

(** An [int] operand of a float operation, rounded to nearest even. *)
Definition of_int (z : Z) : float := binary_normalize prec emax z 0 false.

Definition is_nan (f : float) : bool :=
  match f with
  | S754_nan => true
  | _ => false
  end.

(** The sign bit; NaN carries none in this model. *)
Definition sign_bit (f : float) : bool :=
  match f with
  | S754_zero s | S754_infinity s | S754_finite s _ _ => s
  | S754_nan => false
  end.

(** The decimal [m * 10^e] with [m > 0], correctly rounded. *)
Definition of_decimal (neg : bool) (m : positive) (e : Z) : float :=
  match e with
  | Zneg k =>
      SFdiv prec emax (S754_finite neg m 0)
            (S754_finite false (Pos.pow 10 k) 0)
  | _ => binary_normalize prec emax
           (if neg then Z.neg (m * Z.to_pos (10 ^ e)) else Z.pos (m * Z.to_pos (10 ^ e)))
           0 false
  end.

(** *** [float(s)] on a string *)

(** [Py_ISSPACE]: an ASCII string reaches the parser untransformed. *)
Definition c_isspace (c : ascii) : bool :=
  in_range 9 13 c || (code c =? 32)%N.

Fixpoint c_lstrip (s : str) : str :=
  match s with
  | c :: s' => if c_isspace c then c_lstrip s' else s
  | [] => []
  end.

Definition c_strip (s : str) : str := rev (c_lstrip (rev (c_lstrip s))).

Definition is_underscore (c : ascii) : bool := (code c =? 95)%N.

Definition opt_test (p : ascii -> bool) (o : option ascii) : bool :=
  match o with
  | Some c => p c
  | None => false
  end.

(** An underscore stands only between two digits. *)
Fixpoint underscores_ok (prev : option ascii) (s : str) : bool :=
  match s with
  | [] => negb (opt_test is_underscore prev)
  | c :: s' =>
      (if is_underscore c then opt_test is_digit prev
       else negb (opt_test is_underscore prev) || is_digit c)
      && underscores_ok (Some c) s'
  end.

Fixpoint span_digits (s : str) : str * str :=
  match s with
  | c :: s' =>
      if is_digit c
      then let '(ds, r) := span_digits s' in (c :: ds, r)
      else ([], s)
  | [] => ([], [])
  end.

Definition digit_value (c : ascii) : Z := Z.of_N (code c) - 48.

Definition digits_value (ds : str) : Z :=
  fold_left (fun acc c => 10 * acc + digit_value c) ds 0.

(** Comparison with a lower-case keyword, ignoring case. *)
Definition ci_eqb (s kw : str) : bool := str_eqb (lower s) kw.

Definition is_e (c : ascii) : bool := (code c =? 101)%N || (code c =? 69)%N.
Definition is_plus (c : ascii) : bool := (code c =? 43)%N.
Definition is_minus (c : ascii) : bool := (code c =? 45)%N.
Definition is_dot (c : ascii) : bool := (code c =? 46)%N.

(** The exponent part after the mantissa: absent, or [e], an optional
    sign and at least one digit, up to the end of the input. *)
Definition parse_exponent (s : str) : option Z :=
  match s with
  | [] => Some 0
  | c :: s1 =>
      if is_e c then
        let '(neg, s2) :=
          match s1 with
          | d :: s2 =>
              if is_minus d then (true, s2)
              else if is_plus d then (false, s2) else (false, s1)
          | [] => (false, s1)
          end in
        let '(ds, rest) := span_digits s2 in
        match ds, rest with
        | _ :: _, [] => Some (if neg then - digits_value ds else digits_value ds)
        | _, _ => None
        end
      else None
  end.

(** The text after the sign: [inf], [infinity], [nan] or a decimal
    number, which must take the whole input. *)
Definition parse_unsigned (neg : bool) (s : str) : option float :=
  if ci_eqb s (py "inf") || ci_eqb s (py "infinity") then Some (S754_infinity neg)
  else if ci_eqb s (py "nan") then Some S754_nan
  else
    let '(ip, r1) := span_digits s in
    let '(fp, r2) :=
      match r1 with
      | c :: r => if is_dot c then span_digits r else ([], r1)
      | [] => ([], r1)
      end in
    match ip ++ fp with
    | [] => None
    | _ :: _ =>
        match parse_exponent r2 with
        | Some e =>
            match digits_value (ip ++ fp) with
            | Z.pos m => Some (of_decimal neg m (e - Z.of_nat (length fp)))
            | _ => Some (S754_zero neg)
            end
        | None => None
        end
    end.

(** [float(s)]; [None] is [ValueError]. *)
Definition of_str (s : str) : option float :=
  if underscores_ok None s then
    let body := c_strip (List.filter (fun c => negb (is_underscore c)) s) in
    match body with
    | c :: r =>
        if is_minus c then parse_unsigned true r
        else if is_plus c then parse_unsigned false r
        else parse_unsigned false body
    | [] => None
    end
  else None.

(** The float holds exactly the integer [z]. *)
Definition holds_int (f : float) (z : Z) : bool :=
  match f with
  | S754_zero _ => (z =? 0)
  | S754_finite s m e =>
      let v := if s then Z.neg m else Z.pos m in
      match e with
      | Zneg k => (v =? z * Z.pos (Pos.pow 2 k))
      | _ => (v * 2 ^ e =? z)
      end
  | _ => false
  end.

End PyFloat.

(** ** [clean_market_cap] *)

(** [pd.isna(value)] is the [None] case; a [None] result is Python's
    [None]. *)
Definition clean_market_cap (value : option str) : option PyFloat.float :=
  match value with
  | None => None
  | Some v =>
      let value := remove_char ","%char (remove_char "$"%char (upper (strip v))) in
      if has_char "B"%char value then
        let num := remove_char "B"%char value in
        match PyFloat.of_str num with
        | Some f => Some (PyFloat.mul f (PyFloat.of_int 1000000000))
        | None => None
        end
      else if has_char "M"%char value then
        let num := remove_char "M"%char value in
        match PyFloat.of_str num with
        | Some f => Some (PyFloat.mul f (PyFloat.of_int 1000000))
        | None => None
        end
      else PyFloat.of_str value
  end.

(** ** The main script *)

(** A row of [Companies.csv] and a row of [LinkedIn.csv]; an absent cell
    (NaN) is [None]. *)
Record company_row := {
  Company_Name : str;
  Market_Capitalization : option str
}.

Record linkedin_row := {
  First_Name : option str;
  Last_Name : option str;
  Company : option str;
  Position : option str
}.

(** Step 2: the column [Market Cap (USD)] and the range filter. *)
Definition Market_Cap_USD (c : company_row) : option PyFloat.float :=
  clean_market_cap (Market_Capitalization c).

(** One row of the mask
    [(cap >= MIN_MARKET_CAP_USD) & (cap <= MAX_MARKET_CAP_USD)];
    a missing cap compares false on both sides. *)
Definition in_cap_range (cap : option PyFloat.float) : bool :=
  match cap with
  | Some f =>
      PyFloat.leb (PyFloat.of_int MIN_MARKET_CAP_USD) f &&
      PyFloat.leb f (PyFloat.of_int MAX_MARKET_CAP_USD)
  | None => false
  end.

Definition df_companies_filtered (df_companies : list company_row) : list company_row :=
  List.filter (fun c => in_cap_range (Market_Cap_USD c)) df_companies.

Definition Clean_Company_Name (c : company_row) : str :=
  preprocess_company_name (Some (Company_Name c)).

Definition target_company_names (filtered : list company_row) : list str :=
  map Clean_Company_Name filtered.

(** [set_index(k)[v].to_dict()]: rows are entered in order, a later row
    replacing an earlier one with the same key. *)
Definition to_dict {V} (items : list (str * V)) : gmap str V :=
  fold_left (fun m kv => <[ fst kv := snd kv ]> m) items ∅.

Definition target_company_map (filtered : list company_row) : gmap str str :=
  to_dict (map (fun c => (Clean_Company_Name c, Company_Name c)) filtered).

Definition market_cap_map (filtered : list company_row) : gmap str (option PyFloat.float) :=
  to_dict (map (fun c => (Clean_Company_Name c, Market_Cap_USD c)) filtered).

(** The last row of [rows], in their order, whose clean name is [key]. *)
Fixpoint last_company (key : str) (rows : list company_row) : option company_row :=
  match rows with
  | [] => None
  | c :: rest =>
      match last_company key rest with
      | Some d => Some d
      | None => if str_eqb (Clean_Company_Name c) key then Some c else None
      end
  end.

(** Step 3: matching. *)
Record matched_connection := {
  source_row : linkedin_row;
  Clean_Company : str;
  Matched_Company_Name : str;
  Matched_Market_Cap_USD : option PyFloat.float;
  Match_Score : Z
}.

(** How a run of the script's loop can end. *)
Inductive outcome (A : Type) : Type :=
| Done (a : A)
| KeyError.
Arguments Done {A} a.
Arguments KeyError {A}.

Definition truthy (s : str) : bool :=
  match s with
  | [] => false
  | _ :: _ => true
  end.

Section Matching.

(** [fuzz.token_sort_ratio] after thefuzz's default processor: a
    library function, left abstract. *)
Variable scorer : str -> str -> Z.

(** Modelled from the spec: [process.extractOne] of the thefuzz library,
    which is not part of this repository.  It selects the choice with the
    maximum similarity, the first one among equals, and is [None] when
    there is no choice. *)
Fixpoint extractOne (query : str) (choices : list str) : option (str * Z) :=
  match choices with
  | [] => None
  | c :: rest =>
      match extractOne query rest with
      | Some (b, sb) =>
          if sb >? scorer query c then Some (b, sb) else Some (c, scorer query c)
      | None => Some (c, scorer query c)
      end
  end.

Variable filtered : list company_row.

Record loop_state := {
  fuzzy_match_cache : gmap str (option str * Z);
  matched_connections : list matched_connection
}.

(** The cache check and, on a miss, the library call and the store. *)
Definition cached_match (cache : gmap str (option str * Z)) (clean : str)
  : (option str * Z) * gmap str (option str * Z) :=
  match cache !! clean with
  | Some hit => (hit, cache)
  | None =>
      match extractOne clean (target_company_names filtered) with
      | Some (best_match, score) =>
          ((Some best_match, score), <[ clean := (Some best_match, score) ]> cache)
      | None => ((None, 0), <[ clean := (None, 0) ]> cache)
      end
  end.

(** One iteration of [for index, row in df_linkedin.iterrows()]. *)
Definition loop_body (st : loop_state) (row : linkedin_row) : outcome loop_state :=
  let clean := preprocess_company_name (Company row) in
  if negb (truthy clean) then Done st
  else
    let '((best_match, score), cache) := cached_match (fuzzy_match_cache st) clean in
    let skip := Done {| fuzzy_match_cache := cache;
                        matched_connections := matched_connections st |} in
    match best_match with
    | Some b =>
        if truthy b && (score >=? FUZZY_MATCH_THRESHOLD) then
          match target_company_map filtered !! b, market_cap_map filtered !! b with
          | Some name, Some cap =>
              Done {| fuzzy_match_cache := cache;
                      matched_connections :=
                        matched_connections st ++
                        [ {| source_row := row;
                             Clean_Company := clean;
                             Matched_Company_Name := name;
                             Matched_Market_Cap_USD := cap;
                             Match_Score := score |} ] |}
          | _, _ => KeyError
          end
        else skip
    | None => skip
    end.

Fixpoint loop (st : loop_state) (rows : list linkedin_row) : outcome loop_state :=
  match rows with
  | [] => Done st
  | row :: rows' =>
      match loop_body st row with
      | Done st' => loop st' rows'
      | KeyError => KeyError
      end
  end.

Definition match_connections (df_linkedin : list linkedin_row)
  : outcome (list matched_connection) :=
  match loop {| fuzzy_match_cache := ∅; matched_connections := [] |} df_linkedin with
  | Done st => Done (matched_connections st)
  | KeyError => KeyError
  end.


(** The pair that a cache miss computes and stores for [clean]. *)
Definition fresh_match (clean : str) : option str * Z :=
  match extractOne clean (target_company_names filtered) with
  | Some (best_match, score) => (Some best_match, score)
  | None => (None, 0)
  end.

(** The cache only ever holds what a miss would compute. *)
Definition cache_ok (cache : gmap str (option str * Z)) : Prop :=
  forall clean hit, cache !! clean = Some hit -> hit = fresh_match clean.

(** The records that one row contributes, without cache and without
    dictionaries: the reference point for the loop. *)
Definition produced (row : linkedin_row) : list matched_connection :=
  let clean := preprocess_company_name (Company row) in
  if truthy clean then
    match extractOne clean (target_company_names filtered) with
    | Some (best_match, score) =>
        if truthy best_match && (score >=? FUZZY_MATCH_THRESHOLD) then
          match last_company best_match filtered with
          | Some c =>
              [ {| source_row := row;
                   Clean_Company := clean;
                   Matched_Company_Name := Company_Name c;
                   Matched_Market_Cap_USD := Market_Cap_USD c;
                   Match_Score := score |} ]
          | None => []
          end
        else []
    | None => []
    end
  else [].

End Matching.

(** Steps 4 to 7: scoring, filtering and sorting. *)
Record scored_connection := {
  connection : matched_connection;
  Seniority_Score : Z
}.

Definition with_seniority (m : matched_connection) : scored_connection :=
  {| connection := m;
     Seniority_Score := assign_seniority_score (Position (source_row m)) |}.

(** Python's order on strings: by code point, a proper prefix first. *)
Fixpoint str_compare (a b : str) : comparison :=
  match a, b with
  | [], [] => Eq
  | [], _ :: _ => Lt
  | _ :: _, [] => Gt
  | x :: a', y :: b' =>
      match N.compare (code x) (code y) with
      | Eq => str_compare a' b'
      | c => c
      end
  end.

(** The order of [sort_values(by=['Matched Company Name', 'Seniority Score'],
    ascending=[True, False])]. *)
Definition sort_key_leb (a b : scored_connection) : bool :=
  match str_compare (Matched_Company_Name (connection a))
                    (Matched_Company_Name (connection b)) with
  | Lt => true
  | Gt => false
  | Eq => Seniority_Score b <=? Seniority_Score a
  end.

Definition sort_key_le (a b : scored_connection) : Prop := sort_key_leb a b = true.

#[local] Instance sort_key_le_dec : RelDecision sort_key_le.
Proof. intros a b. unfold sort_key_le. apply _. Defined.

(** Modelled from the spec: [DataFrame.sort_values] of pandas, which is
    not part of this repository, as a merge sort on the two keys. *)
Definition sort_values (rows : list scored_connection) : list scored_connection :=
  merge_sort sort_key_le rows.

Definition df_matched (ms : list matched_connection) : list scored_connection :=
  List.filter (fun r => Seniority_Score r >=? 0) (map with_seniority ms).

Definition df_matched_sorted (ms : list matched_connection) : list scored_connection :=
  sort_values (df_matched ms).

Definition df_potential_contacts (ms : list matched_connection) : list scored_connection :=
  List.filter (fun r => Seniority_Score r >=? MIN_SENIORITY_SCORE) (df_matched_sorted ms).

(** ** Auxiliary predicates *)

(** Every white-space character is a single space between two others;
    [prev_space] tells that a white-space character came just before. *)
Fixpoint single_spaced (prev_space : bool) (s : str) : bool :=
  match s with
  | [] => true
  | c :: s' =>
      if is_space c
      then negb prev_space && Ascii.eqb c " "%char && single_spaced true s'
      else single_spaced false s'
  end.

(** Neither white space nor a lower-case letter. *)
Definition plain_char (c : ascii) : bool := negb (is_space c) && negb (is_lower c).

(** No minus sign anywhere. *)
Definition no_minus (s : str) : Prop := Forall (fun c => PyFloat.is_minus c = false) s.

(** ** Sample data *)

(** A scorer that knows identical names only. *)
Definition exact_scorer (query choice : str) : Z :=
  if str_eqb query choice then 100 else 0.


Definition company (name cap : string) : company_row :=
  {| Company_Name := py name; Market_Capitalization := Some (py cap) |}.

Definition contact (company_name : option string) (position : string) : linkedin_row :=
  {| First_Name := None;
     Last_Name := None;
     Company := option_map py company_name;
     Position := Some (py position) |}.

(** Two reference rows with the same normalized name, [acme]. *)
Definition sample_companies : list company_row :=
  [ company "Acme Corp" "$60M"; company "ACME, Inc." "$0.1B"; company "Big Co" "$2B" ].

Definition sample_connections : list linkedin_row :=
  [ contact (Some "ACME Corporation") "Director";
    contact None "CEO";
    contact (Some "Acme") "Partner";
    contact (Some "Other") "CEO" ].

Definition sample_match : matched_connection :=
  {| source_row := contact (Some "ACME Corporation") "Director";
     Clean_Company := py "acme";
     Matched_Company_Name := py "ACME, Inc.";
     Matched_Market_Cap_USD := Some (PyFloat.of_int 100000000);
     Match_Score := 100 |}.

Definition sample_matches : list matched_connection :=
  [ sample_match;
    {| source_row := contact (Some "Acme") "Partner";
       Clean_Company := py "acme";
       Matched_Company_Name := py "ACME, Inc.";
       Matched_Market_Cap_USD := Some (PyFloat.of_int 100000000);
       Match_Score := 100 |} ].

(** ** Alphabets of the float parser *)

Definition is_letter (c : ascii) : bool := is_upper c || is_lower c.

(** The characters of a decimal literal as [float] reads it. *)
Definition numeric_char (c : ascii) : bool :=
  is_digit c || PyFloat.is_plus c || PyFloat.is_minus c || PyFloat.is_dot c
  || PyFloat.is_e c || PyFloat.is_underscore c || PyFloat.c_isspace c.

(** The characters of [inf], [infinity] and [nan] in any case, with sign,
    white space and underscore. *)
Definition special_char (c : ascii) : bool :=
  has_char (lower_char c) (py "infinityna")
  || PyFloat.is_plus c || PyFloat.is_minus c
  || PyFloat.is_underscore c || PyFloat.c_isspace c.

(** ** The output table *)

Definition digit_char (d : Z) : ascii := ascii_of_N (Z.to_N d + 48).

(** The decimal digits of [n >= 0] before [acc], the most significant
    first; [fuel] bounds the number of digits. *)
Fixpoint decimal_digits (fuel : nat) (n : Z) (acc : str) : str :=
  match fuel with
  | O => acc
  | S fuel' =>
      if n <? 10 then digit_char n :: acc
      else decimal_digits fuel' (n / 10) (digit_char (n mod 10) :: acc)
  end.

Definition decimal (n : Z) : str :=
  decimal_digits (S (Z.to_nat (Z.log2 n))) n [].

(** A comma after every third digit, counted from the last one. *)
Fixpoint group3 (reversed : str) : str :=
  match reversed with
  | a :: b :: c :: ((_ :: _) as more) => a :: b :: c :: ","%char :: group3 more
  | _ => reversed
  end.

Definition thousands (digits : str) : str := rev (group3 (rev digits)).

(** The integer nearest to [m * 2^e], the even one of two that are equally
    near. *)
Definition round_half_even (m : positive) (e : Z) : Z :=
  match e with
  | Zneg k =>
      let d := Z.pos (2 ^ k) in
      let q := Z.pos m / d in
      let r := Z.pos m mod d in
      match 2 * r ?= d with
      | Lt => q
      | Gt => q + 1
      | Eq => if Z.even q then q else q + 1
      end
  | _ => Z.pos m * 2 ^ e
  end.

Definition minus_sign (s : bool) : str := if s then py "-" else [].

(** [f"{x:,.0f}"] *)
Definition format_comma_0f (x : PyFloat.float) : str :=
  match x with
  | S754_nan => py "nan"
  | S754_infinity s => minus_sign s ++ py "inf"
  | S754_zero s => minus_sign s ++ py "0"
  | S754_finite s m e => minus_sign s ++ thousands (decimal (round_half_even m e))
  end.

(** [lambda x: f"${x:,.0f}" if pd.notna(x) else 'N/A'] *)
Definition format_market_cap (x : option PyFloat.float) : str :=
  match x with
  | None | Some S754_nan => py "N/A"
  | Some f => "$"%char :: format_comma_0f f
  end.

(** A row of [df_final_output].  The columns URL, Email Address and
    Connected On pass through as they are, or are filled with [None] when
    the input has none; the rows of this model do not carry them. *)
Record output_row := {
  out_First_Name : option str;
  out_Last_Name : option str;
  out_Position : option str;
  out_Seniority_Score : Z;
  out_Company : option str;
  out_Matched_Company_Name : str;
  out_Matched_Market_Cap_USD : str
}.

Definition final_row (r : scored_connection) : output_row :=
  let m := connection r in
  {| out_First_Name := First_Name (source_row m);
     out_Last_Name := Last_Name (source_row m);
     out_Position := Position (source_row m);
     out_Seniority_Score := Seniority_Score r;
     out_Company := Company (source_row m);
     out_Matched_Company_Name := Matched_Company_Name m;
     out_Matched_Market_Cap_USD := format_market_cap (Matched_Market_Cap_USD m) |}.

(** How the script ends once both files are loaded and have their
    columns: with one of its four [exit()] calls, with the table handed to
    [to_csv], or with an exception of a dictionary lookup. *)
Inductive script_end : Type :=
| No_companies_in_range
| No_connections_matched
| No_suitable_connections
| None_meets_threshold
| Saved (df_final_output : list output_row)
| Raised_KeyError.

Definition main (scorer : str -> str -> Z)
           (df_linkedin : list linkedin_row) (df_companies : list company_row)
  : script_end :=
  match df_companies_filtered df_companies with
  | [] => No_companies_in_range
  | filtered =>
      match match_connections scorer filtered df_linkedin with
      | KeyError => Raised_KeyError
      | Done [] => No_connections_matched
      | Done ms =>
          match df_matched ms with
          | [] => No_suitable_connections
          | _ :: _ =>
              match df_potential_contacts ms with
              | [] => None_meets_threshold
              | contacts => Saved (map final_row contacts)
              end
          end
      end
  end.

(** * Properties *)

(** ** The title scorer *)

Section ScorerFacts.

Variable negative_keywords positive_keywords : list (str * Z).

Lemma fold_max_shift (h v : Z) (l : list Z) :
  fold_right Z.max (Z.max h v) l = Z.max v (fold_right Z.max h l).
Proof.
  induction l as [|x l IH]; simpl.
  - apply Z.max_comm.
  - rewrite IH. lia.
Qed.

Lemma penalty_loop_from (p : str * Z -> bool) (l : list (str * Z)) (acc : Z) :
  fold_left (fun score kp => if p kp then score + snd kp else score) l acc
  = acc + fold_right Z.add 0 (map snd (List.filter p l)).
Proof.
  revert acc. induction l as [|kp l IH]; intros acc; simpl.
  - lia.
  - rewrite IH. destruct (p kp); simpl; lia.
Qed.

Lemma positive_loop_from (p : str * Z -> bool) (l : list (str * Z)) (h : Z) :
  fold_left (fun highest kv => if p kv then Z.max highest (snd kv) else highest) l h
  = fold_right Z.max h (map snd (List.filter p l)).
Proof.
  revert h. induction l as [|kv l IH]; intros h; simpl.
  - reflexivity.
  - rewrite IH. destruct (p kv); simpl.
    + apply fold_max_shift.
    + reflexivity.
Qed.

Lemma penalty_loop_spec (t : str) :
  penalty_loop negative_keywords (lower t) = penaltyTotal negative_keywords t.
Proof.
  unfold penalty_loop, penaltyTotal.
  rewrite (penalty_loop_from (fun kp => contains (fst kp) (lower t))). lia.
Qed.

Lemma positive_loop_spec (t : str) :
  positive_loop positive_keywords (lower t) = bestPositive positive_keywords t.
Proof.
  unfold positive_loop, bestPositive.
  apply (positive_loop_from (fun kv => Re.search_word (fst kv) (lower t))).
Qed.

Lemma raw_score_spec (t : str) :
  raw_score_with negative_keywords positive_keywords t
  = spec_rawScore negative_keywords positive_keywords t.
Proof.
  unfold raw_score_with, spec_rawScore.
  rewrite penalty_loop_spec, positive_loop_spec. reflexivity.
Qed.

Lemma score_with_spec (title : option str) :
  score_with negative_keywords positive_keywords title
  = spec_score negative_keywords positive_keywords title.
Proof.
  destruct title as [t|]; simpl; [|reflexivity].
  rewrite raw_score_spec. reflexivity.
Qed.

Lemma score_with_gap (title : option str) :
  0 <= score_with negative_keywords positive_keywords title
  \/ score_with negative_keywords positive_keywords title < -50.
Proof.
  destruct title as [t|]; simpl; [|lia].
  destruct (Z.geb_spec (raw_score_with negative_keywords positive_keywords t) (-50)); lia.
Qed.

End ScorerFacts.

(** C3: for every title, present or absent, the scorer computes the rule of
    the specification: with [penaltyTotal] the sum of the penalties of the
    negative phrases that occur as substrings of the lower-cased title and
    [bestPositive] the greatest weight of the positive phrases matched as
    whole words, the raw score is [penaltyTotal + bestPositive] when
    [penaltyTotal > -50] and [penaltyTotal] otherwise, and the result is the
    raw score clamped at 0 when it is at least -50 and the raw score itself
    below -50; an absent title scores 0. *)
Theorem assign_seniority_score_rule (title : option str) :
  assign_seniority_score title
  = match title with
    | None => 0
    | Some t =>
        let penalty := penaltyTotal NEGATIVE_KEYWORDS t in
        let best := bestPositive SENIORITY_KEYWORDS t in
        let rawScore := if penalty >? -50 then penalty + best else penalty in
        if rawScore >=? -50 then Z.max rawScore 0 else rawScore
    end.
Proof.
  unfold assign_seniority_score. rewrite score_with_spec.
  destruct title; reflexivity.
Qed.

(** C10: the score of a title is never in the interval from -50 (included)
    to 0 (excluded): it is at least 0 or below -50; a raw score of exactly
    -50 gives 0. *)
Theorem assign_seniority_score_gap :
  (forall title : option str,
      0 <= assign_seniority_score title \/ assign_seniority_score title < -50)
  /\ (forall t : str, raw_score t = -50 -> assign_seniority_score (Some t) = 0).
Proof.
  split.
  - intros title. apply score_with_gap.
  - intros t H. unfold assign_seniority_score, raw_score in *. simpl.
    rewrite H. reflexivity.
Qed.

Lemma assign_seniority_score_gap_witness :
  raw_score (py "Marketing Intern") = -50
  /\ assign_seniority_score (Some (py "Marketing Intern")) = 0.
Proof.
  split.
  - vm_compute. reflexivity.
  - apply (proj2 assign_seniority_score_gap). vm_compute. reflexivity.
Defined.

(** *** Whole-word search *)

Lemma startswith_app (p s : str) :
  startswith p s = true -> s = p ++ skipn (length p) s.
Proof.
  revert s. induction p as [|a p IH]; intros s H; simpl in *.
  - reflexivity.
  - destruct s as [|b s]; [discriminate|].
    apply andb_prop in H as [Hab Hp].
    apply Ascii.eqb_eq in Hab. subst b. simpl.
    f_equal. apply IH, Hp.
Qed.

Lemma startswith_refl_app (p s : str) : startswith p (p ++ s) = true.
Proof.
  induction p as [|a p IH]; simpl; [reflexivity|].
  rewrite Ascii.eqb_refl. exact IH.
Qed.

Lemma skipn_length_app (p s : str) : skipn (length p) (p ++ s) = s.
Proof. induction p; simpl; auto. Qed.

Lemma last_opt_app (prev : option ascii) (a kw : str) :
  kw <> [] -> Re.last_opt prev (a ++ kw) = Re.last_opt None kw.
Proof.
  intros Hkw. unfold Re.last_opt. rewrite rev_app_distr.
  destruct (rev kw) as [|c r] eqn:E.
  - apply (f_equal (@rev ascii)) in E. rewrite rev_involutive in E. contradiction.
  - reflexivity.
Qed.

Lemma search_word_from_skip (prev : option ascii) (kw a rest : str) :
  Re.search_word_from (Re.last_opt prev a) kw rest = true ->
  Re.search_word_from prev kw (a ++ rest) = true.
Proof.
  revert prev. induction a as [|c a IH]; intros prev H.
  - exact H.
  - simpl. apply orb_true_iff. right. apply IH.
    replace (Re.last_opt (Some c) a) with (Re.last_opt prev (c :: a)); [exact H|].
    unfold Re.last_opt. simpl.
    destruct (rev a) as [|x r]; reflexivity.
Qed.

(** A phrase that ends in a space-separated keyword is never matched
    without that keyword being matched too. *)
Lemma search_word_tail (a kw : str) (x y : ascii) (kw' : str) :
  Re.last_opt None a = Some x -> is_word x = false ->
  kw = y :: kw' -> is_word y = true ->
  forall (s : str) (prev : option ascii),
    Re.search_word_from prev (a ++ kw) s = true ->
    Re.search_word_from prev kw s = true.
Proof.
  intros Hlast Hx Hkw Hy s.
  induction s as [|c s IH]; intros prev H.
  - simpl in H. rewrite orb_false_r in H.
    unfold Re.match_word_at in H.
    apply andb_prop in H as [H _]. apply andb_prop in H as [_ H].
    destruct a; simpl in H; [subst kw; simpl in H|]; discriminate.
  - simpl in H. apply orb_prop in H as [H|H].
    + unfold Re.match_word_at in H.
      apply andb_prop in H as [H Hb2]. apply andb_prop in H as [_ Hs].
      pose proof (startswith_app _ _ Hs) as E.
      set (post := skipn (length (a ++ kw)) (c :: s)) in *.
      rewrite E, <- app_assoc.
      apply search_word_from_skip.
      assert (Hne : kw <> []) by (subst kw; discriminate).
      assert (Hl : Re.last_opt prev a = Some x).
      { unfold Re.last_opt in *. destruct (rev a); [discriminate|exact Hlast]. }
      rewrite Hl.
      assert (Hm : Re.match_word_at (Some x) kw (kw ++ post) = true).
      { unfold Re.match_word_at.
        rewrite startswith_refl_app, skipn_length_app.
        rewrite (last_opt_app prev a kw Hne) in Hb2.
        replace (Re.last_opt (Some x) kw) with (Re.last_opt None kw).
        2:{ subst kw. unfold Re.last_opt.
            destruct (rev (y :: kw')) eqn:Er; [|reflexivity].
            apply (f_equal (@rev ascii)) in Er. rewrite rev_involutive in Er. discriminate. }
        rewrite Hb2. subst kw. unfold Re.word_boundary. simpl.
        rewrite Hx, Hy. reflexivity. }
      destruct (kw ++ post) as [|d r] eqn:Ed; simpl; rewrite Hm; reflexivity.
    + simpl. apply orb_true_iff. right. apply IH, H.
Qed.

Lemma fold_max_ge (h v : Z) (l : list Z) :
  In v l -> v <= fold_right Z.max h l.
Proof.
  induction l as [|x l IH]; simpl; [tauto|].
  intros [->|Hin]; [lia|]. specialize (IH Hin). lia.
Qed.

Lemma bestPositive_ge (table : list (str * Z)) (kw : str) (w : Z) (t : str) :
  In (kw, w) table -> Re.search_word kw (lower t) = true ->
  w <= bestPositive table t.
Proof.
  intros Hin Hm. unfold bestPositive. apply fold_max_ge.
  apply (in_map snd _ (kw, w)). apply filter_In. split; [exact Hin|exact Hm].
Qed.

(** C1: the scorer gives 100 for "CEO" and 76 for the abbreviation "SVP",
    but 85 for "Senior Vice President": the keyword "president" (85) is
    also matched as a whole word in every title in which "senior vice
    president" (76) is, and the maximum weight is taken, so that the
    table's weight 76 for the spelled-out phrase never decides a score. *)
Theorem senior_vice_president_scores_85 :
  assign_seniority_score (Some (py "CEO")) = 100
  /\ assign_seniority_score (Some (py "SVP")) = 76
  /\ assign_seniority_score (Some (py "Senior Vice President")) = 85
  /\ (forall t : str,
        Re.search_word (py "senior vice president") (lower t) = true ->
        85 <= bestPositive SENIORITY_KEYWORDS t).
Proof.
  split; [vm_compute; reflexivity|].
  split; [vm_compute; reflexivity|].
  split; [vm_compute; reflexivity|].
  intros t H.
  apply (bestPositive_ge SENIORITY_KEYWORDS (py "president")).
  - vm_compute. tauto.
  - unfold Re.search_word in *.
    apply (search_word_tail (py "senior vice ") (py "president")
             " "%char "p"%char (py "resident"));
      [reflexivity | reflexivity | reflexivity | reflexivity | exact H].
Qed.

Lemma senior_vice_president_scores_85_witness :
  Re.search_word (py "senior vice president") (lower (py "Senior Vice President")) = true
  /\ 85 <= bestPositive SENIORITY_KEYWORDS (py "Senior Vice President").
Proof.
  split.
  - vm_compute. reflexivity.
  - apply (proj2 (proj2 (proj2 senior_vice_president_scores_85))).
    vm_compute. reflexivity.
Defined.

(** ** Name normalization *)

(** *** Stripping *)

Lemma lstrip_Forall (P : ascii -> Prop) (s : str) :
  Forall P s -> Forall P (lstrip s).
Proof.
  induction 1 as [|c s Hc Hs IH]; simpl; [constructor|].
  destruct (is_space c); [exact IH|]. constructor; assumption.
Qed.

Lemma lstrip_head (s : str) (c : ascii) (r : str) :
  lstrip s = c :: r -> is_space c = false.
Proof.
  induction s as [|a s IH]; simpl; [discriminate|].
  destruct (is_space a) eqn:E; [exact IH|].
  intros [= <- _]. exact E.
Qed.

Lemma lstrip_idem (s : str) : lstrip (lstrip s) = lstrip s.
Proof.
  induction s as [|a s IH]; simpl; [reflexivity|].
  destruct (is_space a) eqn:E; [exact IH|]. simpl. rewrite E. reflexivity.
Qed.

Lemma lstrip_snoc (s : str) (c : ascii) :
  is_space c = false -> lstrip (s ++ [c]) = lstrip s ++ [c].
Proof.
  intros Hc. induction s as [|a s IH]; simpl.
  - rewrite Hc. reflexivity.
  - destruct (is_space a); [exact IH|reflexivity].
Qed.

Lemma rstrip_Forall (P : ascii -> Prop) (s : str) :
  Forall P s -> Forall P (rstrip s).
Proof.
  intros H. unfold rstrip.
  apply Forall_rev, lstrip_Forall, Forall_rev, H.
Qed.

Lemma rstrip_cons (c : ascii) (s : str) :
  is_space c = false -> rstrip (c :: s) = c :: rstrip s.
Proof.
  intros Hc. unfold rstrip. simpl.
  rewrite (lstrip_snoc _ _ Hc), rev_app_distr. reflexivity.
Qed.

Lemma rstrip_idem (s : str) : rstrip (rstrip s) = rstrip s.
Proof.
  unfold rstrip. rewrite rev_involutive, lstrip_idem. reflexivity.
Qed.

(** [rstrip] keeps a prefix. *)
Lemma rstrip_prefix (s : str) : exists post, s = rstrip s ++ post.
Proof.
  unfold rstrip.
  assert (H : forall l : str, exists pre, l = pre ++ lstrip l).
  { induction l as [|a l [pre IH]]; simpl.
    - exists []. reflexivity.
    - destruct (is_space a).
      + exists (a :: pre). simpl. f_equal. exact IH.
      + exists []. reflexivity. }
  destruct (H (rev s)) as [pre Hpre].
  exists (rev pre).
  rewrite <- rev_app_distr, <- Hpre, rev_involutive. reflexivity.
Qed.

Lemma strip_Forall (P : ascii -> Prop) (s : str) :
  Forall P s -> Forall P (strip s).
Proof. intros H. apply rstrip_Forall, lstrip_Forall, H. Qed.

Lemma strip_idem (s : str) : strip (strip s) = strip s.
Proof.
  unfold strip.
  destruct (lstrip s) as [|c r] eqn:E.
  - reflexivity.
  - pose proof (lstrip_head _ _ _ E) as Hc.
    rewrite (rstrip_cons _ _ Hc). simpl. rewrite Hc.
    rewrite <- (rstrip_cons _ _ Hc). apply rstrip_idem.
Qed.

(** *** Runs of white space *)


Lemma single_spaced_sub_spaces (b : bool) (s : str) :
  single_spaced b (Re.sub_spaces_from b s) = true.
Proof.
  revert b. induction s as [|c s IH]; intros b; simpl; [reflexivity|].
  destruct (is_space c) eqn:E.
  - destruct b; [apply IH|].
    simpl. apply IH.
  - simpl. rewrite E. apply IH.
Qed.

Lemma single_spaced_weaken (b : bool) (s : str) :
  single_spaced b s = true -> single_spaced false s = true.
Proof.
  destruct s as [|c s]; simpl; [reflexivity|].
  destruct (is_space c); [|tauto].
  destruct b; simpl; [discriminate|tauto].
Qed.

Lemma single_spaced_lstrip (b : bool) (s : str) :
  single_spaced b s = true -> single_spaced false (lstrip s) = true.
Proof.
  revert b. induction s as [|c s IH]; intros b H; simpl; [reflexivity|].
  destruct (is_space c) eqn:E.
  - simpl in H. rewrite E in H.
    apply andb_prop in H as [_ H]. apply (IH true), H.
  - apply (single_spaced_weaken b), H.
Qed.

Lemma single_spaced_app_l (b : bool) (p q : str) :
  single_spaced b (p ++ q) = true -> single_spaced b p = true.
Proof.
  revert b. induction p as [|c p IH]; intros b H; simpl in *; [reflexivity|].
  destruct (is_space c).
  - apply andb_prop in H as [H1 H2]. rewrite H1. simpl. apply IH, H2.
  - apply IH, H.
Qed.

Lemma single_spaced_strip (b : bool) (s : str) :
  single_spaced b s = true -> single_spaced false (strip s) = true.
Proof.
  intros H. unfold strip.
  destruct (rstrip_prefix (lstrip s)) as [post Hpost].
  apply (single_spaced_app_l false _ post). rewrite <- Hpost.
  apply (single_spaced_lstrip b), H.
Qed.

Lemma sub_spaces_fixed (b : bool) (s : str) :
  single_spaced b s = true -> Re.sub_spaces_from b s = s.
Proof.
  revert b. induction s as [|c s IH]; intros b H; simpl in *; [reflexivity|].
  destruct (is_space c).
  - apply andb_prop in H as [H H2]. apply andb_prop in H as [Hb Hc].
    destruct b; [discriminate|].
    apply Ascii.eqb_eq in Hc. subst c. f_equal. apply IH, H2.
  - f_equal. apply IH, H.
Qed.

Lemma sub_spaces_Forall (P : ascii -> Prop) (b : bool) (s : str) :
  P " "%char -> Forall P s -> Forall P (Re.sub_spaces_from b s).
Proof.
  intros Hsp H. revert b.
  induction H as [|c s Hc Hs IH]; intros b; simpl; [constructor|].
  destruct (is_space c).
  - destruct b; [apply IH|]. constructor; [exact Hsp|apply IH].
  - constructor; [exact Hc|apply IH].
Qed.

(** *** The suffix pattern *)

Lemma match_dot_dollar_tail (P : ascii -> Prop) (rest r : str) :
  Re.match_dot_dollar rest = Some r -> Forall P rest -> Forall P r.
Proof.
  unfold Re.match_dot_dollar. destruct rest as [|c rest'].
  - intros [= <-] H. exact H.
  - intros H HP.
    destruct ((code c =? 46)%N && Re.at_dollar rest').
    + injection H as <-. inversion HP; assumption.
    + destruct (Re.at_dollar (c :: rest')); [|discriminate].
      injection H as <-. exact HP.
Qed.

Lemma Forall_skipn_str (P : ascii -> Prop) (n : nat) (s : str) :
  Forall P s -> Forall P (skipn n s).
Proof.
  revert s. induction n as [|n IH]; intros s H; simpl; [exact H|].
  destruct s as [|c s]; [constructor|]. apply IH. inversion H; assumption.
Qed.

Lemma match_alts_tail (P : ascii -> Prop) (kws : list str) (rest r : str) :
  Re.match_alts kws rest = Some r -> Forall P rest -> Forall P r.
Proof.
  induction kws as [|kw kws IH]; simpl; [discriminate|].
  intros H HP. destruct (Re.match_alt kw rest) as [r'|] eqn:E.
  - injection H as <-. unfold Re.match_alt in E.
    destruct (_ && _) in E; [|discriminate].
    apply (match_dot_dollar_tail P _ _ E), Forall_skipn_str, HP.
  - apply IH; assumption.
Qed.

Lemma sub_suffix_Forall (P : ascii -> Prop) (prev : option ascii) (s : str) :
  Forall P s -> Forall P (Re.sub_suffix_from prev s).
Proof.
  intros H. revert prev.
  induction H as [|c s Hc Hs IH]; intros prev.
  - simpl. destruct (Re.match_suffix_at prev []) as [r|] eqn:E; [|constructor].
    unfold Re.match_suffix_at in E. destruct (Re.word_boundary prev []); [|discriminate].
    apply (match_alts_tail P _ _ _ E). constructor.
  - simpl. destruct (Re.match_suffix_at prev (c :: s)) as [r|] eqn:E.
    + unfold Re.match_suffix_at in E.
      destruct (Re.word_boundary prev (c :: s)); [|discriminate].
      apply (match_alts_tail P _ _ _ E). constructor; assumption.
    + constructor; [exact Hc|apply IH].
Qed.

Lemma sub_suffix_fixed (prev : option ascii) (s : str) :
  Re.search_suffix_from prev s = false -> Re.sub_suffix_from prev s = s.
Proof.
  revert prev. induction s as [|c s IH]; intros prev H; simpl in *.
  - destruct (Re.match_suffix_at prev []); [discriminate|reflexivity].
  - destruct (Re.match_suffix_at prev (c :: s)); [discriminate|].
    f_equal. apply IH, H.
Qed.

(** What a match leaves behind holds no further match. *)
Lemma no_second_match (prev p : option ascii) (s r : str) :
  Re.match_suffix_at prev s = Some r -> Re.sub_suffix_from p r = r.
Proof.
  intros H.
  assert (Hd : Re.at_dollar r = true).
  { unfold Re.match_suffix_at in H. destruct (Re.word_boundary prev s); [|discriminate].
    revert H. generalize Re.LEGAL_SUFFIXES. intros kws.
    induction kws as [|kw kws IH]; simpl; [discriminate|].
    destruct (Re.match_alt kw s) as [r'|] eqn:E; [|exact IH].
    intros [= <-]. unfold Re.match_alt in E.
    destruct (_ && _) in E; [|discriminate].
    unfold Re.match_dot_dollar in E.
    destruct (skipn (length kw) s) as [|c rest'] eqn:Es.
    - injection E as <-. reflexivity.
    - destruct ((code c =? 46)%N && Re.at_dollar rest') eqn:E1.
      + injection E as <-. apply andb_prop in E1 as [_ E1]. exact E1.
      + destruct (Re.at_dollar (c :: rest')) eqn:E2; [|discriminate].
        injection E as <-. exact E2. }
  assert (Hnil : forall q, Re.match_suffix_at q [] = None).
  { intros q. unfold Re.match_suffix_at. destruct (Re.word_boundary q []); reflexivity. }
  assert (Hnl : forall q, Re.match_suffix_at q ["010"%char] = None).
  { intros q. unfold Re.match_suffix_at.
    destruct (Re.word_boundary q ["010"%char]); reflexivity. }
  destruct r as [|c [|d r]]; simpl in Hd; [| |discriminate].
  - cbn [Re.sub_suffix_from]. rewrite Hnil. reflexivity.
  - apply N.eqb_eq in Hd.
    assert (c = "010"%char) as ->.
    { rewrite <- (ascii_N_embedding c). unfold code in Hd. rewrite Hd. reflexivity. }
    cbn [Re.sub_suffix_from]. rewrite Hnl, Hnil. reflexivity.
Qed.

(** *** Normal forms *)

Lemma lower_char_not_upper (c : ascii) : is_upper (lower_char c) = false.
Proof. destruct c as [[] [] [] [] [] [] [] []]; reflexivity. Qed.

Lemma lower_fixed (s : str) :
  Forall (fun c => is_upper c = false) s -> lower s = s.
Proof.
  unfold lower. induction 1 as [|c s Hc Hs IH]; simpl; [reflexivity|].
  rewrite IH. unfold lower_char. rewrite Hc. reflexivity.
Qed.

Lemma sub_punctuation_fixed (s : str) :
  Forall (fun c => is_word c || is_space c = true) s -> Re.sub_punctuation s = s.
Proof.
  unfold Re.sub_punctuation. induction 1 as [|c s Hc Hs IH]; simpl; [reflexivity|].
  rewrite Hc. f_equal. exact IH.
Qed.

Lemma filter_Forall_keep (P : ascii -> Prop) (f : ascii -> bool) (s : str) :
  Forall P s -> Forall P (List.filter f s).
Proof.
  induction 1 as [|c s Hc Hs IH]; simpl; [constructor|].
  destruct (f c); [constructor; assumption|exact IH].
Qed.

Lemma filter_Forall_test (f : ascii -> bool) (s : str) :
  Forall (fun c => f c = true) (List.filter f s).
Proof.
  induction s as [|c s IH]; simpl; [constructor|].
  destruct (f c) eqn:E; [constructor; assumption|exact IH].
Qed.

Lemma preprocess_no_upper (s : str) :
  Forall (fun c => is_upper c = false) (preprocess_company_name (Some s)).
Proof.
  unfold preprocess_company_name.
  apply strip_Forall, sub_spaces_Forall; [reflexivity|].
  apply filter_Forall_keep, strip_Forall, sub_suffix_Forall.
  unfold lower. induction s as [|c s' IH]; simpl; constructor;
    [apply lower_char_not_upper|exact IH].
Qed.

Lemma preprocess_word_or_space (s : str) :
  Forall (fun c => is_word c || is_space c = true) (preprocess_company_name (Some s)).
Proof.
  unfold preprocess_company_name.
  apply strip_Forall, sub_spaces_Forall; [reflexivity|].
  apply filter_Forall_test.
Qed.

Lemma preprocess_single_spaced (s : str) :
  single_spaced false (preprocess_company_name (Some s)) = true.
Proof.
  unfold preprocess_company_name.
  apply (single_spaced_strip false), single_spaced_sub_spaces.
Qed.

Lemma preprocess_stripped (s : str) :
  strip (preprocess_company_name (Some s)) = preprocess_company_name (Some s).
Proof. unfold preprocess_company_name. apply strip_idem. Qed.

Lemma preprocess_fixed (n : str) :
  Forall (fun c => is_upper c = false) n ->
  Forall (fun c => is_word c || is_space c = true) n ->
  single_spaced false n = true ->
  strip n = n ->
  Re.search_suffix n = false ->
  preprocess_company_name (Some n) = n.
Proof.
  intros Hup Hws Hsp Hst Hsuf. unfold preprocess_company_name.
  rewrite (lower_fixed n Hup).
  unfold Re.sub_suffix. rewrite (sub_suffix_fixed None n Hsuf).
  rewrite Hst, (sub_punctuation_fixed n Hws).
  unfold Re.sub_spaces. rewrite (sub_spaces_fixed false n Hsp).
  exact Hst.
Qed.

(** C2, the counterexample: "Acme Inc Inc" normalizes to "acme inc", which
    normalizes to "acme". *)
Lemma preprocess_company_name_not_idempotent :
  preprocess_company_name (Some (py "Acme Inc Inc")) = py "acme inc"
  /\ preprocess_company_name (Some (preprocess_company_name (Some (py "Acme Inc Inc"))))
     = py "acme"
  /\ preprocess_company_name (Some (preprocess_company_name (Some (py "Acme Inc Inc"))))
     <> preprocess_company_name (Some (py "Acme Inc Inc")).
Proof.
  split; [vm_compute; reflexivity|].
  split; [vm_compute; reflexivity|].
  vm_compute. discriminate.
Qed.

(** C2, as amended: for every ASCII string whose normalized name holds no
    match of the legal-suffix pattern any more (it does not end in one of
    the words inc, llc, ltd, corp, corporation, plc, gmbh, ag, co),
    normalizing the normalized name gives the normalized name back. *)
Theorem preprocess_company_name_idempotent_without_suffix (s : str) :
  ascii_only s ->
  Re.search_suffix (preprocess_company_name (Some s)) = false ->
  preprocess_company_name (Some (preprocess_company_name (Some s)))
  = preprocess_company_name (Some s).
Proof.
  intros _ Hsuf. apply preprocess_fixed.
  - apply preprocess_no_upper.
  - apply preprocess_word_or_space.
  - apply preprocess_single_spaced.
  - apply preprocess_stripped.
  - exact Hsuf.
Qed.

Lemma preprocess_company_name_idempotent_without_suffix_witness :
  preprocess_company_name (Some (preprocess_company_name (Some (py "  ACME,  Widgets Corp."))))
  = preprocess_company_name (Some (py "  ACME,  Widgets Corp.")).
Proof.
  apply (preprocess_company_name_idempotent_without_suffix (py "  ACME,  Widgets Corp.")).
  - unfold ascii_only. repeat constructor.
  - vm_compute. reflexivity.
Defined.

(** ** Market capitalization *)


Lemma strip_plain (s : str) :
  Forall (fun c => is_space c = false) s -> strip s = s.
Proof.
  intros H.
  assert (L : forall l : str, Forall (fun c => is_space c = false) l -> lstrip l = l).
  { intros l Hl. destruct Hl as [|c l Hc _]; simpl; [reflexivity|]. rewrite Hc. reflexivity. }
  unfold strip, rstrip. rewrite (L s H), (L (rev s)).
  - apply rev_involutive.
  - apply Forall_rev, H.
Qed.

Lemma upper_fixed (s : str) :
  Forall (fun c => is_lower c = false) s -> upper s = s.
Proof.
  unfold upper. induction 1 as [|c s Hc Hs IH]; simpl; [reflexivity|].
  rewrite IH. unfold upper_char. rewrite Hc. reflexivity.
Qed.

Lemma remove_char_app (c : ascii) (a b : str) :
  remove_char c (a ++ b) = remove_char c a ++ remove_char c b.
Proof. unfold remove_char. apply List.filter_app. Qed.

Lemma remove_char_absent (c : ascii) (s : str) :
  has_char c s = false -> remove_char c s = s.
Proof.
  unfold has_char, remove_char. induction s as [|a s IH]; simpl; [reflexivity|].
  intros H. apply orb_false_elim in H as [Ha Hs].
  rewrite Ascii.eqb_sym, Ha. simpl. f_equal. apply IH, Hs.
Qed.

Lemma has_char_app (c : ascii) (a b : str) :
  has_char c (a ++ b) = has_char c a || has_char c b.
Proof. unfold has_char. apply List.existsb_app. Qed.

Lemma plain_split (d : str) :
  Forall (fun c => plain_char c = true) d ->
  Forall (fun c => is_space c = false) d /\ Forall (fun c => is_lower c = false) d.
Proof.
  induction 1 as [|c d Hc Hd [IH1 IH2]]; [split; constructor|].
  unfold plain_char in Hc. apply andb_prop in Hc as [H1 H2].
  apply negb_true_iff in H1, H2. split; constructor; assumption.
Qed.

(** The value [value] of the source after [strip], [upper] and the two
    [replace] calls, for a plain text followed by one more character. *)
Lemma cleaned_value (d : str) (x : ascii) :
  Forall (fun c => plain_char c = true) d ->
  plain_char x = true -> Ascii.eqb x "$"%char = false -> Ascii.eqb x ","%char = false ->
  remove_char ","%char (remove_char "$"%char (upper (strip (d ++ [x]))))
  = remove_char ","%char (remove_char "$"%char d) ++ [x].
Proof.
  intros Hd Hx H1 H2.
  assert (Hdx : Forall (fun c => plain_char c = true) (d ++ [x])).
  { apply Forall_app. split; [exact Hd|]. constructor; [exact Hx|constructor]. }
  destruct (plain_split _ Hdx) as [Hs Hl].
  rewrite (strip_plain _ Hs), (upper_fixed _ Hl), !remove_char_app.
  f_equal. unfold remove_char. simpl. rewrite H1. simpl. rewrite H2. reflexivity.
Qed.

Lemma cleaned_value_plain (d : str) :
  Forall (fun c => plain_char c = true) d ->
  remove_char ","%char (remove_char "$"%char (upper (strip d)))
  = remove_char ","%char (remove_char "$"%char d).
Proof.
  intros Hd. destruct (plain_split _ Hd) as [Hs Hl].
  rewrite (strip_plain _ Hs), (upper_fixed _ Hl). reflexivity.
Qed.

(** C4: the parsing contract of [clean_market_cap].  Let [d] be a text
    without white space or lower-case letters and [n] what is left of it
    once every [$] and [,] is taken out, with no [B] and no [M] in it.
    Then [d] followed by [B] gives [float(n) * 1e9], [d] followed by [M]
    gives [float(n) * 1e6], [d] alone gives [float(n)], and in each case the
    result is null when [float(n)] fails.  Moreover "$55.3M" gives
    55,300,000, "98B" gives 98,000,000,000, "120000000" gives 120,000,000
    and "abc" gives null, the three floats holding exactly these
    integers. *)
Theorem clean_market_cap_contract :
  (forall d n : str,
      Forall (fun c => plain_char c = true) d ->
      n = remove_char ","%char (remove_char "$"%char d) ->
      has_char "B"%char n = false -> has_char "M"%char n = false ->
      clean_market_cap (Some (d ++ py "B"))
      = option_map (fun f => PyFloat.mul f (PyFloat.of_int (10 ^ 9))) (PyFloat.of_str n)
      /\ clean_market_cap (Some (d ++ py "M"))
         = option_map (fun f => PyFloat.mul f (PyFloat.of_int (10 ^ 6))) (PyFloat.of_str n)
      /\ clean_market_cap (Some d) = PyFloat.of_str n)
  /\ clean_market_cap (Some (py "$55.3M")) = Some (PyFloat.of_int 55300000)
  /\ clean_market_cap (Some (py "98B")) = Some (PyFloat.of_int 98000000000)
  /\ clean_market_cap (Some (py "120000000")) = Some (PyFloat.of_int 120000000)
  /\ clean_market_cap (Some (py "abc")) = None
  /\ Forall (fun z => PyFloat.holds_int (PyFloat.of_int z) z = true)
            [55300000; 98000000000; 120000000].
Proof.
  split.
  - intros d n Hd Hn HB HM. split; [|split].
    + unfold clean_market_cap.
      replace (py "B") with ["B"%char] by reflexivity.
      rewrite (cleaned_value d "B"%char Hd) by reflexivity. rewrite <- Hn.
      rewrite has_char_app, HB. simpl.
      rewrite remove_char_app, (remove_char_absent _ _ HB). simpl.
      rewrite app_nil_r. destruct (PyFloat.of_str n); reflexivity.
    + unfold clean_market_cap.
      replace (py "M") with ["M"%char] by reflexivity.
      rewrite (cleaned_value d "M"%char Hd) by reflexivity. rewrite <- Hn.
      rewrite !has_char_app, HB, HM. simpl.
      rewrite remove_char_app, (remove_char_absent _ _ HM). simpl.
      rewrite app_nil_r. destruct (PyFloat.of_str n); reflexivity.
    + unfold clean_market_cap.
      rewrite (cleaned_value_plain d Hd), <- Hn, HB, HM. reflexivity.
  - repeat split; try (vm_compute; reflexivity).
    repeat constructor.
Qed.

Lemma clean_market_cap_contract_witness :
  clean_market_cap (Some (py "$1,234.5" ++ py "B"))
  = option_map (fun f => PyFloat.mul f (PyFloat.of_int (10 ^ 9))) (PyFloat.of_str (py "1234.5"))
  /\ clean_market_cap (Some (py "$1,234.5" ++ py "M"))
     = option_map (fun f => PyFloat.mul f (PyFloat.of_int (10 ^ 6))) (PyFloat.of_str (py "1234.5"))
  /\ clean_market_cap (Some (py "$1,234.5")) = PyFloat.of_str (py "1234.5").
Proof.
  apply (proj1 clean_market_cap_contract (py "$1,234.5") (py "1234.5")).
  - repeat constructor.
  - vm_compute. reflexivity.
  - vm_compute. reflexivity.
  - vm_compute. reflexivity.
Defined.

(** *** Signs *)

Lemma binary_round_aux_sign (m e : Z) (l : location) :
  PyFloat.sign_bit (binary_round_aux PyFloat.prec PyFloat.emax false m e l) = false.
Proof.
  unfold binary_round_aux.
  destruct (shr_fexp _ _ m e l) as [mrs' e'].
  destruct (shr_fexp _ _ _ e' loc_Exact) as [mrs'' e''].
  destruct (shr_m mrs''); [reflexivity| |reflexivity].
  destruct (Z.leb _ _); reflexivity.
Qed.

Lemma of_decimal_sign (m : positive) (e : Z) :
  PyFloat.sign_bit (PyFloat.of_decimal false m e) = false.
Proof.
  unfold PyFloat.of_decimal. destruct e as [|k|k].
  - unfold binary_normalize, binary_round.
    destruct (shl_align _ _ _) as [mz ez]. apply binary_round_aux_sign.
  - unfold binary_normalize, binary_round.
    destruct (shl_align _ _ _) as [mz ez]. apply binary_round_aux_sign.
  - unfold SFdiv.
    destruct (SFdiv_core_binary _ _ _ _ _ _) as [[mz ez] lz].
    apply binary_round_aux_sign.
Qed.

Lemma mul_sign (f : PyFloat.float) (m : positive) (e : Z) :
  PyFloat.sign_bit f = false ->
  PyFloat.sign_bit (PyFloat.mul f (S754_finite false m e)) = false.
Proof.
  destruct f as [s|s| |s mf ef]; simpl; intros H; try subst s; try reflexivity.
  unfold PyFloat.mul, SFmul. apply binary_round_aux_sign.
Qed.

Lemma nonnegative_of_sign (f : PyFloat.float) :
  PyFloat.sign_bit f = false -> PyFloat.is_nan f = false ->
  PyFloat.leb (PyFloat.of_int 0) f = true.
Proof.
  destruct f as [s|s| |s mf ef]; simpl; intros H N;
    try subst s; try discriminate; reflexivity.
Qed.

Lemma parse_unsigned_sign (s : str) (f : PyFloat.float) :
  PyFloat.parse_unsigned false s = Some f -> PyFloat.sign_bit f = false.
Proof.
  unfold PyFloat.parse_unsigned.
  destruct (_ || _); [intros [= <-]; reflexivity|].
  destruct (PyFloat.ci_eqb s (py "nan")); [intros [= <-]; reflexivity|].
  destruct (PyFloat.span_digits s) as [ip r1].
  destruct (match r1 with [] => _ | _ :: _ => _ end) as [fp r2].
  destruct (ip ++ fp) as [|c ds] eqn:E; [discriminate|].
  destruct (PyFloat.parse_exponent r2) as [e|]; [|discriminate].
  destruct (PyFloat.digits_value (c :: ds)); intros [= <-];
    try reflexivity. apply of_decimal_sign.
Qed.

Lemma is_minus_eqb (c : ascii) : Ascii.eqb "-"%char c = PyFloat.is_minus c.
Proof. destruct c as [[] [] [] [] [] [] [] []]; reflexivity. Qed.

Lemma is_minus_upper (c : ascii) : PyFloat.is_minus (upper_char c) = PyFloat.is_minus c.
Proof. destruct c as [[] [] [] [] [] [] [] []]; reflexivity. Qed.


Lemma no_minus_of_has_char (s : str) : has_char "-"%char s = false -> no_minus s.
Proof.
  unfold has_char, no_minus. induction s as [|c s IH]; simpl; [constructor|].
  intros H. apply orb_false_elim in H as [Hc Hs].
  constructor; [rewrite <- is_minus_eqb; exact Hc|apply IH, Hs].
Qed.

Lemma c_lstrip_Forall (P : ascii -> Prop) (s : str) :
  Forall P s -> Forall P (PyFloat.c_lstrip s).
Proof.
  induction 1 as [|c s Hc Hs IH]; simpl; [constructor|].
  destruct (PyFloat.c_isspace c); [exact IH|]. constructor; assumption.
Qed.

Lemma of_str_sign (s : str) (f : PyFloat.float) :
  no_minus s -> PyFloat.of_str s = Some f -> PyFloat.sign_bit f = false.
Proof.
  intros Hs. unfold PyFloat.of_str.
  destruct (PyFloat.underscores_ok None s); [|discriminate].
  assert (Hb : no_minus (PyFloat.c_strip
            (List.filter (fun c => negb (PyFloat.is_underscore c)) s))).
  { unfold PyFloat.c_strip, no_minus.
    apply Forall_rev, c_lstrip_Forall, Forall_rev, c_lstrip_Forall, filter_Forall_keep, Hs. }
  destruct (PyFloat.c_strip _) as [|c r]; [discriminate|].
  inversion Hb as [|? ? Hc Hr]; subst. rewrite Hc.
  destruct (PyFloat.is_plus c); apply parse_unsigned_sign.
Qed.

Lemma cleaned_no_minus (v : str) :
  no_minus v ->
  no_minus (remove_char ","%char (remove_char "$"%char (upper (strip v)))).
Proof.
  intros H. unfold no_minus, remove_char.
  apply filter_Forall_keep, filter_Forall_keep.
  assert (Hs : no_minus (strip v)) by (apply strip_Forall, H).
  unfold upper. induction Hs as [|c s Hc Hs IH]; simpl; constructor;
    [rewrite is_minus_upper; exact Hc|exact IH].
Qed.

Lemma clean_market_cap_sign (v : str) (f : PyFloat.float) :
  no_minus v -> clean_market_cap (Some v) = Some f -> PyFloat.sign_bit f = false.
Proof.
  intros Hv. unfold clean_market_cap.
  pose proof (cleaned_no_minus v Hv) as Hc.
  set (value := remove_char ","%char (remove_char "$"%char (upper (strip v)))) in *.
  assert (Hr : forall x, no_minus (remove_char x value)).
  { intros x. apply filter_Forall_keep, Hc. }
  destruct (has_char "B"%char value).
  - destruct (PyFloat.of_str _) as [g|] eqn:E; [|discriminate].
    intros [= <-]. apply (mul_sign g 8388608000000000 (-23)).
    apply (of_str_sign _ _ (Hr "B"%char) E).
  - destruct (has_char "M"%char value).
    + destruct (PyFloat.of_str _) as [g|] eqn:E; [|discriminate].
      intros [= <-]. apply (mul_sign g 8589934592000000 (-33)).
      apply (of_str_sign _ _ (Hr "M"%char) E).
    + apply of_str_sign, Hc.
Qed.

(** C5, the counterexamples: "-5" gives the float -5.0 and "$-2.5M" gives
    -2,500,000.0, which are below 0, and "NAN" gives NaN, which is not at
    least 0 either. *)
Lemma clean_market_cap_negative :
  clean_market_cap (Some (py "-5")) = Some (PyFloat.of_int (-5))
  /\ PyFloat.leb (PyFloat.of_int 0) (PyFloat.of_int (-5)) = false
  /\ clean_market_cap (Some (py "$-2.5M")) = Some (PyFloat.of_int (-2500000))
  /\ PyFloat.leb (PyFloat.of_int 0) (PyFloat.of_int (-2500000)) = false
  /\ clean_market_cap (Some (py "NAN")) = Some S754_nan
  /\ PyFloat.leb (PyFloat.of_int 0) S754_nan = false.
Proof. repeat split; vm_compute; reflexivity. Qed.

(** C5, as amended: for every ASCII input string without a minus sign,
    whenever [clean_market_cap] returns a number that is not NaN, that
    number is greater than or equal to 0. *)
Theorem clean_market_cap_nonnegative (v : str) (f : PyFloat.float) :
  ascii_only v ->
  has_char "-"%char v = false ->
  clean_market_cap (Some v) = Some f ->
  PyFloat.is_nan f = false ->
  PyFloat.leb (PyFloat.of_int 0) f = true.
Proof.
  intros _ Hm Hf Hn. apply nonnegative_of_sign; [|exact Hn].
  apply (clean_market_cap_sign v f); [|exact Hf].
  apply no_minus_of_has_char, Hm.
Qed.

Lemma clean_market_cap_nonnegative_witness :
  PyFloat.leb (PyFloat.of_int 0) (PyFloat.of_int 55300000) = true.
Proof.
  apply (clean_market_cap_nonnegative (py "$55.3M") (PyFloat.of_int 55300000)).
  - unfold ascii_only. repeat constructor.
  - vm_compute. reflexivity.
  - vm_compute. reflexivity.
  - vm_compute. reflexivity.
Defined.

(** ** The market-cap range *)

Lemma ltb_not_leb (f g : PyFloat.float) :
  PyFloat.ltb f g = true -> PyFloat.leb g f = false.
Proof.
  unfold PyFloat.ltb, PyFloat.leb, SFltb, SFleb.
  destruct f as [s1|s1| |s1 m1 e1], g as [s2|s2| |s2 m2 e2]; simpl;
    try discriminate; try (destruct s1; discriminate || reflexivity);
    try (destruct s2; discriminate || reflexivity);
    try (destruct s1, s2; discriminate || reflexivity).
  destruct s1, s2; try discriminate; try reflexivity;
    rewrite (Z.compare_antisym e1 e2);
    destruct (e1 ?= e2); simpl; try discriminate; try reflexivity;
    change (Pos.compare_cont Eq m2 m1) with (Pos.compare m2 m1);
    change (Pos.compare_cont Eq m1 m2) with (Pos.compare m1 m2);
    rewrite (Pos.compare_antisym m1 m2);
    destruct (m1 ?= m2)%positive; simpl; try discriminate; reflexivity.
Qed.

(** C6: the range filter keeps both ends.  A cap equal to
    [MIN_MARKET_CAP_USD] or to [MAX_MARKET_CAP_USD] is in the range, a cap
    strictly below the minimum or strictly above the maximum is not, and a
    null cap is not; the filter keeps exactly the rows whose cap is in the
    range, in their order, so that an unparsable cap drops the row and
    nothing else happens.  On five rows with the caps 50000000, $100M,
    49999999.99, 100000000.01 and abc, the first two are kept. *)
Theorem market_cap_range_inclusive :
  in_cap_range (Some (PyFloat.of_int MIN_MARKET_CAP_USD)) = true
  /\ in_cap_range (Some (PyFloat.of_int MAX_MARKET_CAP_USD)) = true
  /\ (forall f : PyFloat.float,
        PyFloat.ltb f (PyFloat.of_int MIN_MARKET_CAP_USD) = true ->
        in_cap_range (Some f) = false)
  /\ (forall f : PyFloat.float,
        PyFloat.ltb (PyFloat.of_int MAX_MARKET_CAP_USD) f = true ->
        in_cap_range (Some f) = false)
  /\ in_cap_range None = false
  /\ (forall (df_companies : list company_row) (c : company_row),
        In c (df_companies_filtered df_companies)
        <-> In c df_companies /\ in_cap_range (clean_market_cap (Market_Capitalization c)) = true)
  /\ df_companies_filtered
       [ company "Low End" "50000000"; company "High End" "$100M";
         company "Cent Below" "49999999.99"; company "Cent Above" "100000000.01";
         company "No Cap" "abc" ]
     = [ company "Low End" "50000000"; company "High End" "$100M" ].
Proof.
  split; [vm_compute; reflexivity|].
  split; [vm_compute; reflexivity|].
  split.
  { intros f H. unfold in_cap_range. rewrite (ltb_not_leb _ _ H). reflexivity. }
  split.
  { intros f H. unfold in_cap_range. rewrite (ltb_not_leb _ _ H).
    apply andb_false_r. }
  split; [reflexivity|].
  split.
  { intros df c. unfold df_companies_filtered, Market_Cap_USD. apply List.filter_In. }
  vm_compute. reflexivity.
Qed.

Lemma market_cap_range_inclusive_witness :
  in_cap_range (clean_market_cap (Some (py "49999999.99"))) = false
  /\ in_cap_range (clean_market_cap (Some (py "100000000.01"))) = false.
Proof.
  split.
  - apply (proj1 (proj2 (proj2 market_cap_range_inclusive))
             (PyFloat.of_decimal false 4999999999 (-2))).
    vm_compute. reflexivity.
  - apply (proj1 (proj2 (proj2 (proj2 market_cap_range_inclusive)))
             (PyFloat.of_decimal false 10000000001 (-2))).
    vm_compute. reflexivity.
Defined.

(** ** Matching *)

Lemma str_eqb_eq (a b : str) : str_eqb a b = true <-> a = b.
Proof. unfold str_eqb. apply bool_decide_eq_true. Qed.

Lemma to_dict_from {V} (key : company_row -> str) (val : company_row -> V)
      (rows : list company_row) (m : gmap str V) (k : str) :
  (forall c, key c = Clean_Company_Name c) ->
  fold_left (fun m kv => <[ fst kv := snd kv ]> m)
            (map (fun c => (key c, val c)) rows) m !! k
  = match last_company k rows with
    | Some c => Some (val c)
    | None => m !! k
    end.
Proof.
  intros Hkey. revert m. induction rows as [|c rows IH]; intros m; simpl.
  - reflexivity.
  - rewrite IH. destruct (last_company k rows) as [d|]; [reflexivity|].
    rewrite Hkey. unfold str_eqb. case_bool_decide as E.
    + rewrite E. apply lookup_insert_eq.
    + apply lookup_insert_ne, E.
Qed.

Lemma target_company_map_lookup (filtered : list company_row) (k : str) :
  target_company_map filtered !! k = option_map Company_Name (last_company k filtered).
Proof.
  unfold target_company_map, to_dict.
  rewrite (to_dict_from Clean_Company_Name Company_Name) by reflexivity.
  destruct (last_company k filtered); reflexivity.
Qed.

Lemma market_cap_map_lookup (filtered : list company_row) (k : str) :
  market_cap_map filtered !! k = option_map Market_Cap_USD (last_company k filtered).
Proof.
  unfold market_cap_map, to_dict.
  rewrite (to_dict_from Clean_Company_Name Market_Cap_USD) by reflexivity.
  destruct (last_company k filtered); reflexivity.
Qed.

Lemma last_company_In (k : str) (rows : list company_row) :
  In k (target_company_names rows) -> exists c, last_company k rows = Some c.
Proof.
  unfold target_company_names. induction rows as [|c rows IH]; simpl; [tauto|].
  intros [E|H].
  - destruct (last_company k rows) as [d|]; [exists d; reflexivity|].
    exists c. rewrite (proj2 (str_eqb_eq _ _) E). reflexivity.
  - destruct (IH H) as [d ->]. exists d. reflexivity.
Qed.

(** [last_company] is the last one: no later row has the same clean name. *)
Lemma last_company_last (k : str) (rows : list company_row) (c : company_row) :
  last_company k rows = Some c ->
  exists pre post,
    rows = pre ++ c :: post /\ Clean_Company_Name c = k
    /\ Forall (fun d => Clean_Company_Name d <> k) post.
Proof.
  revert c. induction rows as [|x rows IH]; intros c; simpl; [discriminate|].
  destruct (last_company k rows) as [d|] eqn:E.
  - intros [= <-]. destruct (IH d eq_refl) as (pre & post & -> & Hk & Hpost).
    exists (x :: pre), post. auto.
  - destruct (str_eqb (Clean_Company_Name x) k) eqn:Ex; [|discriminate].
    intros [= <-]. exists [], rows. split; [reflexivity|].
    split; [apply str_eqb_eq, Ex|].
    clear IH Ex. induction rows as [|y rows IH]; [constructor|].
    simpl in E. destruct (last_company k rows); [discriminate|].
    destruct (str_eqb (Clean_Company_Name y) k) eqn:Ey; [discriminate|].
    constructor; [|apply IH; reflexivity].
    intros Hy. apply str_eqb_eq in Hy. congruence.
Qed.

Section MatchingFacts.

Variable scorer : str -> str -> Z.
Variable filtered : list company_row.

Lemma extractOne_In (query : str) (choices : list str) (b : str) (s : Z) :
  extractOne scorer query choices = Some (b, s) ->
  In b choices /\ s = scorer query b.
Proof.
  revert b s. induction choices as [|c rest IH]; intros b s; simpl; [discriminate|].
  destruct (extractOne scorer query rest) as [[b' s']|].
  - destruct (s' >? scorer query c).
    + intros [= <- <-]. destruct (IH b' s' eq_refl). auto.
    + intros [= <- <-]. auto.
  - intros [= <- <-]. auto.
Qed.

(** The selected score is the greatest one. *)
Lemma extractOne_max (query : str) (choices : list str) (b : str) (s : Z) :
  extractOne scorer query choices = Some (b, s) ->
  Forall (fun c => scorer query c <= s) choices.
Proof.
  revert b s. induction choices as [|c rest IH]; intros b s; simpl; [constructor|].
  destruct (extractOne scorer query rest) as [[b' s']|] eqn:E.
  - specialize (IH b' s' eq_refl).
    destruct (Z.gtb_spec s' (scorer query c)); intros [= <- <-].
    + constructor; [lia|exact IH].
    + constructor; [lia|].
      eapply List.Forall_impl; [|exact IH]. simpl. intros; lia.
  - intros [= <- <-]. constructor; [lia|].
    destruct rest as [|c' rest']; [constructor|].
    simpl in E. destruct (extractOne scorer query rest') as [[b1 s1]|];
      [destruct (s1 >? scorer query c')|]; discriminate.
Qed.

Lemma cached_match_spec (cache : gmap str (option str * Z)) (clean : str) :
  cache_ok scorer filtered cache ->
  exists cache',
    cached_match scorer filtered cache clean = (fresh_match scorer filtered clean, cache')
    /\ cache_ok scorer filtered cache'.
Proof.
  intros Hok. unfold cached_match.
  destruct (cache !! clean) as [hit|] eqn:E.
  - exists cache. rewrite (Hok _ _ E). auto.
  - assert (Hins : cache_ok scorer filtered
                     (<[ clean := fresh_match scorer filtered clean ]> cache)).
    { intros k hit Hk. destruct (decide (clean = k)) as [->|Hne].
      - rewrite lookup_insert_eq in Hk. congruence.
      - rewrite lookup_insert_ne in Hk by exact Hne. apply (Hok _ _ Hk). }
    unfold fresh_match in *.
    destruct (extractOne scorer clean (target_company_names filtered)) as [[b s]|];
      eexists; split; try reflexivity; exact Hins.
Qed.

Lemma loop_body_spec (st : loop_state) (row : linkedin_row) :
  cache_ok scorer filtered (fuzzy_match_cache st) ->
  exists cache',
    loop_body scorer filtered st row
    = Done {| fuzzy_match_cache := cache';
              matched_connections :=
                matched_connections st ++ produced scorer filtered row |}
    /\ cache_ok scorer filtered cache'.
Proof.
  intros Hok. unfold loop_body, produced.
  destruct (truthy (preprocess_company_name (Company row))) eqn:Ht; simpl.
  2:{ exists (fuzzy_match_cache st). rewrite app_nil_r. destruct st; auto. }
  destruct (cached_match_spec _ (preprocess_company_name (Company row)) Hok)
    as (cache' & -> & Hok').
  exists cache'. split; [|exact Hok'].
  unfold fresh_match.
  destruct (extractOne scorer _ (target_company_names filtered)) as [[b s]|] eqn:E.
  2:{ rewrite app_nil_r. reflexivity. }
  destruct (truthy b && (s >=? FUZZY_MATCH_THRESHOLD)).
  2:{ rewrite app_nil_r. reflexivity. }
  destruct (extractOne_In _ _ _ _ E) as [Hin _].
  destruct (last_company_In _ _ Hin) as [c Hc].
  rewrite target_company_map_lookup, market_cap_map_lookup, Hc. reflexivity.
Qed.

Lemma loop_spec (rows : list linkedin_row) (st : loop_state) :
  cache_ok scorer filtered (fuzzy_match_cache st) ->
  exists cache',
    loop scorer filtered st rows
    = Done {| fuzzy_match_cache := cache';
              matched_connections :=
                matched_connections st ++ flat_map (produced scorer filtered) rows |}.
Proof.
  revert st. induction rows as [|row rows IH]; intros st Hok; simpl.
  - exists (fuzzy_match_cache st). rewrite app_nil_r. destruct st; reflexivity.
  - destruct (loop_body_spec st row Hok) as (cache1 & -> & Hok1).
    destruct (IH {| fuzzy_match_cache := cache1;
                    matched_connections :=
                      matched_connections st ++ produced scorer filtered row |} Hok1)
      as (cache2 & ->). simpl.
    exists cache2. rewrite <- app_assoc. reflexivity.
Qed.

(** The loop never raises, and the cache changes none of its results. *)
Lemma match_connections_spec (df_linkedin : list linkedin_row) :
  match_connections scorer filtered df_linkedin
  = Done (flat_map (produced scorer filtered) df_linkedin).
Proof.
  unfold match_connections.
  assert (Hok : cache_ok scorer filtered ∅).
  { intros k hit Hk. rewrite lookup_empty in Hk. discriminate. }
  destruct (loop_spec df_linkedin
              {| fuzzy_match_cache := ∅; matched_connections := [] |} Hok)
    as (cache' & ->).
  reflexivity.
Qed.


End MatchingFacts.

Lemma truthy_nonempty (s : str) : truthy s = true <-> s <> [].
Proof. destruct s; simpl; split; congruence. Qed.





(** C9: every matched record carries the official name and the market cap
    of the last filtered reference row, in the order of the rows, whose
    normalized name is the one that the record was matched to. *)
Theorem matched_carries_last_company (scorer : str -> str -> Z)
        (filtered : list company_row) (df_linkedin : list linkedin_row)
        (ms : list matched_connection) (m : matched_connection) :
  match_connections scorer filtered df_linkedin = Done ms ->
  In m ms ->
  exists (best_match : str) (c : company_row) (before after : list company_row),
    extractOne scorer (Clean_Company m) (target_company_names filtered)
    = Some (best_match, Match_Score m)
    /\ filtered = before ++ c :: after
    /\ Clean_Company_Name c = best_match
    /\ Forall (fun d => Clean_Company_Name d <> best_match) after
    /\ Matched_Company_Name m = Company_Name c
    /\ Matched_Market_Cap_USD m = Market_Cap_USD c.
Proof.
  rewrite match_connections_spec. intros [= <-] Hm.
  apply in_flat_map in Hm as (row & _ & Hm).
  unfold produced in Hm.
  destruct (truthy _); [|destruct Hm].
  destruct (extractOne _ _ _) as [[b s]|] eqn:E; [|destruct Hm].
  destruct (_ && _); [|destruct Hm].
  destruct (last_company b filtered) as [c|] eqn:Ec; [|destruct Hm].
  destruct Hm as [<-|[]]. simpl.
  destruct (last_company_last _ _ _ Ec) as (pre & post & Hf & Hk & Hpost).
  exists b, c, pre, post. auto 10.
Qed.


Lemma matched_carries_last_company_witness :
  exists (best_match : str) (c : company_row) (before after : list company_row),
    extractOne exact_scorer (Clean_Company sample_match)
               (target_company_names (df_companies_filtered sample_companies))
    = Some (best_match, Match_Score sample_match)
    /\ df_companies_filtered sample_companies = before ++ c :: after
    /\ Clean_Company_Name c = best_match
    /\ Forall (fun d => Clean_Company_Name d <> best_match) after
    /\ Matched_Company_Name sample_match = Company_Name c
    /\ Matched_Market_Cap_USD sample_match = Market_Cap_USD c.
Proof.
  apply (matched_carries_last_company exact_scorer
           (df_companies_filtered sample_companies) sample_connections
           sample_matches sample_match).
  - vm_compute. reflexivity.
  - vm_compute. tauto.
Defined.

(** ** Sorting *)

Lemma code_inj (x y : ascii) : code x = code y -> x = y.
Proof.
  unfold code. intros H.
  rewrite <- (ascii_N_embedding x), <- (ascii_N_embedding y), H. reflexivity.
Qed.

Lemma str_compare_eq (a b : str) : str_compare a b = Eq -> a = b.
Proof.
  revert b. induction a as [|x a IH]; intros [|y b]; simpl; try discriminate; [reflexivity|].
  destruct (N.compare_spec (code x) (code y)) as [E|L|G]; try discriminate.
  intros H. rewrite (code_inj _ _ E), (IH _ H). reflexivity.
Qed.

Lemma str_compare_refl (a : str) : str_compare a a = Eq.
Proof.
  induction a as [|x a IH]; simpl; [reflexivity|].
  rewrite N.compare_refl. exact IH.
Qed.

Lemma str_compare_antisym (a b : str) :
  str_compare b a = CompOpp (str_compare a b).
Proof.
  revert b. induction a as [|x a IH]; intros [|y b]; simpl; try reflexivity.
  rewrite (N.compare_antisym (code x) (code y)).
  destruct (code x ?= code y)%N; simpl; [apply IH|reflexivity|reflexivity].
Qed.

Lemma str_compare_lt_trans (a b c : str) :
  str_compare a b = Lt -> str_compare b c = Lt -> str_compare a c = Lt.
Proof.
  revert b c. induction a as [|x a IH]; intros [|y b] [|z c]; simpl;
    try discriminate; try reflexivity.
  destruct (N.compare_spec (code x) (code y)) as [E1|L1|G1];
    destruct (N.compare_spec (code y) (code z)) as [E2|L2|G2];
    destruct (N.compare_spec (code x) (code z)) as [E3|L3|G3];
    try discriminate; try lia; try reflexivity.
  apply IH.
Qed.

#[local] Instance sort_key_le_total : Total sort_key_le.
Proof.
  intros a b. unfold sort_key_le, sort_key_leb.
  rewrite (str_compare_antisym (Matched_Company_Name (connection a))
                               (Matched_Company_Name (connection b))).
  destruct (str_compare _ _); simpl; auto.
  destruct (Z.leb_spec (Seniority_Score b) (Seniority_Score a)); [auto|].
  right. apply Z.leb_le. lia.
Qed.

#[local] Instance sort_key_le_trans : Transitive sort_key_le.
Proof.
  intros a b c. unfold sort_key_le, sort_key_leb.
  destruct (str_compare (Matched_Company_Name (connection a))
                        (Matched_Company_Name (connection b))) eqn:Eab; try discriminate;
    destruct (str_compare (Matched_Company_Name (connection b))
                          (Matched_Company_Name (connection c))) eqn:Ebc; try discriminate.
  - apply str_compare_eq in Eab, Ebc. rewrite Eab, Ebc, str_compare_refl.
    rewrite !Z.leb_le. lia.
  - apply str_compare_eq in Eab. rewrite Eab, Ebc. auto.
  - apply str_compare_eq in Ebc. rewrite <- Ebc, Eab. auto.
  - rewrite (str_compare_lt_trans _ _ _ Eab Ebc). auto.
Qed.

Lemma sort_key_le_spec (a b : scored_connection) :
  sort_key_le a b <->
  str_compare (Matched_Company_Name (connection a))
              (Matched_Company_Name (connection b)) = Lt
  \/ (Matched_Company_Name (connection a) = Matched_Company_Name (connection b)
      /\ Seniority_Score b <= Seniority_Score a).
Proof.
  unfold sort_key_le, sort_key_leb.
  destruct (str_compare _ _) eqn:E.
  - apply str_compare_eq in E. rewrite Z.leb_le. split; [auto|].
    intros [H|[_ H]]; [discriminate|exact H].
  - split; auto.
  - split; [discriminate|]. intros [H|[H _]]; [discriminate|].
    rewrite H, str_compare_refl in E. discriminate.
Qed.

Lemma StronglySorted_filter_keep {A} (R : A -> A -> Prop) (f : A -> bool) (l : list A) :
  StronglySorted R l -> StronglySorted R (List.filter f l).
Proof.
  induction 1 as [|x l Hl IH Hx]; simpl; [constructor|].
  destruct (f x); [|exact IH]. constructor; [exact IH|].
  clear -Hx. induction Hx as [|y l Hy Hl IH]; simpl; [constructor|].
  destruct (f y); [constructor; assumption|exact IH].
Qed.

Lemma StronglySorted_weaken {A} (R S : A -> A -> Prop) (l : list A) :
  (forall x y, R x y -> S x y) -> StronglySorted R l -> StronglySorted S l.
Proof.
  intros HRS. induction 1 as [|x l Hl IH Hx]; constructor; [exact IH|].
  eapply List.Forall_impl; [|exact Hx]. intros y. apply HRS.
Qed.

(** C8: the emitted rows are in order, ascending by matched official
    company name and, under one name, descending by seniority score; each
    of them has a seniority score of at least [MIN_SENIORITY_SCORE], and
    they are the matched rows with such a score; two connections matched to
    one company, met with the scores 60 and 80 in that order, come out as
    80, then 60. *)
Theorem potential_contacts_sorted (ms : list matched_connection) :
  StronglySorted
    (fun a b =>
       str_compare (Matched_Company_Name (connection a))
                   (Matched_Company_Name (connection b)) = Lt
       \/ (Matched_Company_Name (connection a) = Matched_Company_Name (connection b)
           /\ Seniority_Score b <= Seniority_Score a))
    (df_potential_contacts ms)
  /\ Forall (fun r => MIN_SENIORITY_SCORE <= Seniority_Score r) (df_potential_contacts ms)
  /\ (forall r : scored_connection,
        In r (df_potential_contacts ms)
        <-> In r (map with_seniority ms) /\ MIN_SENIORITY_SCORE <= Seniority_Score r)
  /\ map Seniority_Score (map with_seniority sample_matches) = [60; 80]
  /\ map Seniority_Score (df_potential_contacts sample_matches) = [80; 60].
Proof.
  split; [|split; [|split]].
  - apply (StronglySorted_weaken sort_key_le); [intros x y; apply sort_key_le_spec|].
    unfold df_potential_contacts. apply StronglySorted_filter_keep.
    unfold df_matched_sorted, sort_values. apply StronglySorted_merge_sort; apply _.
  - unfold df_potential_contacts. apply List.Forall_forall. intros r Hr.
    apply List.filter_In in Hr as [_ Hr]. apply Z.geb_le in Hr. exact Hr.
  - intros r. unfold df_potential_contacts, df_matched_sorted, sort_values, df_matched.
    rewrite List.filter_In.
    assert (Hperm : forall l : list scored_connection,
               In r (merge_sort sort_key_le l) <-> In r l).
    { intros l. rewrite <- !list_elem_of_In.
      rewrite (merge_sort_Permutation sort_key_le l). reflexivity. }
    rewrite Hperm, List.filter_In, Z.geb_le, Z.geb_le.
    unfold MIN_SENIORITY_SCORE. intuition lia.
  - split; vm_compute; reflexivity.
Qed.

(** * Further properties *)

(** ** The title scorer: range, case and negation *)

Lemma bestPositive_range (table : list (str * Z)) (hi : Z) (t : str) :
  0 <= hi ->
  Forall (fun kv => snd kv <= hi) table ->
  0 <= bestPositive table t <= hi.
Proof.
  intros Hhi H. unfold bestPositive.
  induction H as [|kv table Hkv Ht IH]; simpl; [lia|].
  destruct (Re.search_word (fst kv) (lower t)); simpl; lia.
Qed.

Lemma seniority_weights_range (t : str) : 0 <= bestPositive SENIORITY_KEYWORDS t <= 100.
Proof.
  apply bestPositive_range; [lia|].
  unfold SENIORITY_KEYWORDS. repeat constructor; simpl; lia.
Qed.

(** The penalty total as a sum of four terms, one for each negative
    keyword. *)
Lemma penaltyTotal_terms (t : str) :
  penaltyTotal NEGATIVE_KEYWORDS t
  = (if contains (py "assistant to") (lower t) then -20 else 0)
    + (if contains (py "intern") (lower t) then -50 else 0)
    + (if contains (py "former") (lower t) then -100 else 0)
    + (if contains (py "ex-") (lower t) then -100 else 0).
Proof.
  unfold penaltyTotal, NEGATIVE_KEYWORDS. cbn -[py contains lower].
  destruct (contains (py "assistant to") (lower t)),
           (contains (py "intern") (lower t)),
           (contains (py "former") (lower t)),
           (contains (py "ex-") (lower t)); reflexivity.
Qed.

Lemma assign_seniority_score_unfold (t : str) :
  assign_seniority_score (Some t)
  = let penalty := penaltyTotal NEGATIVE_KEYWORDS t in
    let raw := if penalty >? -50 then penalty + bestPositive SENIORITY_KEYWORDS t
               else penalty in
    if raw >=? -50 then Z.max raw 0 else raw.
Proof.
  unfold assign_seniority_score. rewrite score_with_spec. reflexivity.
Qed.

Ltac score_cases t :=
  rewrite assign_seniority_score_unfold, penaltyTotal_terms;
  pose proof (seniority_weights_range t);
  cbv zeta;
  repeat match goal with
         | |- context [contains ?k (lower t)] => destruct (contains k (lower t))
         | H : context [contains ?k (lower t)] |- _ => destruct (contains k (lower t))
         end;
  repeat match goal with
         | |- context [?a >? ?b] => destruct (Z.gtb_spec a b)
         | |- context [?a >=? ?b] => destruct (Z.geb_spec a b)
         end.

(** X1: whatever the title, the score lies between -270, the sum of all
    four penalties, and 100, the greatest keyword weight. *)
Theorem assign_seniority_score_range (title : option str) :
  -270 <= assign_seniority_score title <= 100.
Proof.
  destruct title as [t|]; [|vm_compute; split; discriminate].
  score_cases t; lia.
Qed.

Lemma lower_char_idem (c : ascii) : lower_char (lower_char c) = lower_char c.
Proof. destruct c as [[] [] [] [] [] [] [] []]; reflexivity. Qed.

Lemma lower_upper_char (c : ascii) : lower_char (upper_char c) = lower_char c.
Proof. destruct c as [[] [] [] [] [] [] [] []]; reflexivity. Qed.

Lemma lower_lower (s : str) : lower (lower s) = lower s.
Proof.
  unfold lower. rewrite map_map. apply map_ext. intros c. apply lower_char_idem.
Qed.

(** On ASCII text [upper] and [lower] are Python's [str.upper] and
    [str.lower], and lowering undoes the change of case. *)
Lemma lower_upper (s : str) : ascii_only s -> lower (upper s) = lower s.
Proof.
  unfold lower, upper. induction 1 as [|c s _ _ IH]; simpl; [reflexivity|].
  rewrite lower_upper_char, IH. reflexivity.
Qed.

(** X2: on ASCII titles the score does not depend on the case of the
    letters: the upper-case form and the lower-case form of a title score
    as the title itself does. *)
Theorem assign_seniority_score_ignores_case (t : str) :
  ascii_only t ->
  assign_seniority_score (Some (upper t)) = assign_seniority_score (Some t)
  /\ assign_seniority_score (Some (lower t)) = assign_seniority_score (Some t).
Proof.
  intros Ht. unfold assign_seniority_score, score_with, raw_score_with.
  rewrite (lower_upper t Ht), lower_lower. split; reflexivity.
Qed.

Lemma assign_seniority_score_ignores_case_witness :
  assign_seniority_score (Some (upper (py "Chief Executive Officer")))
  = assign_seniority_score (Some (py "Chief Executive Officer"))
  /\ assign_seniority_score (Some (lower (py "Chief Executive Officer")))
     = assign_seniority_score (Some (py "Chief Executive Officer")).
Proof.
  apply (assign_seniority_score_ignores_case (py "Chief Executive Officer")).
  unfold ascii_only. repeat constructor.
Defined.

(** X3: a title in which the letters "intern" occur, in any case and
    anywhere (also inside "internal" or "international"), never scores
    above 0, so that it cannot reach [MIN_SENIORITY_SCORE]. *)
Theorem intern_never_scores (t : str) :
  contains (py "intern") (lower t) = true ->
  assign_seniority_score (Some t) <= 0
  /\ assign_seniority_score (Some t) < MIN_SENIORITY_SCORE.
Proof.
  intros H. unfold MIN_SENIORITY_SCORE.
  rewrite assign_seniority_score_unfold, penaltyTotal_terms, H.
  pose proof (seniority_weights_range t). cbv zeta.
  destruct (contains (py "assistant to") (lower t)),
           (contains (py "former") (lower t)),
           (contains (py "ex-") (lower t));
    repeat match goal with
           | |- context [?a >? ?b] => destruct (Z.gtb_spec a b)
           | |- context [?a >=? ?b] => destruct (Z.geb_spec a b)
           end; lia.
Qed.

Lemma intern_never_scores_witness :
  assign_seniority_score (Some (py "International Sales Director")) <= 0
  /\ assign_seniority_score (Some (py "International Sales Director")) < MIN_SENIORITY_SCORE.
Proof.
  apply (intern_never_scores (py "International Sales Director")).
  vm_compute. reflexivity.
Defined.

(** X4: a title in which "former" or "ex-" occurs, in any case and
    anywhere, scores -100 or less whatever else it holds, so that the
    filter [Seniority Score >= 0] drops it. *)
Theorem former_scores_negative (t : str) :
  contains (py "former") (lower t) = true \/ contains (py "ex-") (lower t) = true ->
  assign_seniority_score (Some t) <= -100
  /\ (assign_seniority_score (Some t) >=? 0) = false.
Proof.
  intros H.
  assert (Hs : assign_seniority_score (Some t) <= -100).
  { rewrite assign_seniority_score_unfold, penaltyTotal_terms.
    pose proof (seniority_weights_range t). cbv zeta.
    destruct (contains (py "assistant to") (lower t)),
             (contains (py "intern") (lower t)),
             (contains (py "former") (lower t)),
             (contains (py "ex-") (lower t));
      try (destruct H; discriminate);
      repeat match goal with
             | |- context [?a >? ?b] => destruct (Z.gtb_spec a b)
             | |- context [?a >=? ?b] => destruct (Z.geb_spec a b)
             end; lia. }
  split; [exact Hs|]. destruct (Z.geb_spec (assign_seniority_score (Some t)) 0); [lia|reflexivity].
Qed.

Lemma former_scores_negative_witness :
  assign_seniority_score (Some (py "Index-Fund Manager")) <= -100
  /\ (assign_seniority_score (Some (py "Index-Fund Manager")) >=? 0) = false.
Proof.
  apply (former_scores_negative (py "Index-Fund Manager")).
  right. vm_compute. reflexivity.
Defined.

(** X5: which titles pass the seniority threshold.  A title scores at
    least [MIN_SENIORITY_SCORE] exactly when none of "intern", "former"
    and "ex-" occurs in it and its best positive weight, less 20 when
    "assistant to" occurs, is at least [MIN_SENIORITY_SCORE]. *)
Theorem seniority_threshold_iff (t : str) :
  MIN_SENIORITY_SCORE <= assign_seniority_score (Some t)
  <-> contains (py "intern") (lower t) = false
      /\ contains (py "former") (lower t) = false
      /\ contains (py "ex-") (lower t) = false
      /\ MIN_SENIORITY_SCORE
         <= bestPositive SENIORITY_KEYWORDS t
            + (if contains (py "assistant to") (lower t) then -20 else 0).
Proof.
  unfold MIN_SENIORITY_SCORE.
  rewrite assign_seniority_score_unfold, penaltyTotal_terms.
  pose proof (seniority_weights_range t). cbv zeta.
  destruct (contains (py "assistant to") (lower t)),
           (contains (py "intern") (lower t)),
           (contains (py "former") (lower t)),
           (contains (py "ex-") (lower t));
    repeat match goal with
           | |- context [?a >? ?b] => destruct (Z.gtb_spec a b)
           | |- context [?a >=? ?b] => destruct (Z.geb_spec a b)
           end;
    split; intros; repeat split; try discriminate; try lia;
    try (exfalso; intuition (discriminate || lia)); intuition lia.
Qed.

(** ** Name normalization: the shape of a normalized name *)

Lemma strip_first (x : str) (c : ascii) (r : str) :
  strip x = c :: r -> is_space c = false.
Proof.
  unfold strip. destruct (lstrip x) as [|d r'] eqn:E.
  - discriminate.
  - pose proof (lstrip_head _ _ _ E) as Hd.
    rewrite (rstrip_cons _ _ Hd). intros [= <- _]. exact Hd.
Qed.

Lemma strip_last (x : str) (r : str) (c : ascii) :
  strip x = r ++ [c] -> is_space c = false.
Proof.
  unfold strip, rstrip. intros H.
  apply (f_equal (@rev ascii)) in H.
  rewrite rev_involutive, rev_app_distr in H. simpl in H.
  apply (lstrip_head _ _ _ H).
Qed.

Lemma single_spaced_spaces (b : bool) (s : str) :
  single_spaced b s = true ->
  Forall (fun c => is_space c = true -> c = " "%char) s.
Proof.
  revert b. induction s as [|c s IH]; intros b H; [constructor|].
  simpl in H. destruct (is_space c) eqn:E.
  - apply andb_prop in H as [H H2]. apply andb_prop in H as [_ Hc].
    apply Ascii.eqb_eq in Hc. constructor; [auto|apply (IH true), H2].
  - constructor; [congruence|apply (IH false), H].
Qed.

Lemma single_spaced_no_pair (b : bool) (a : str) (x y : ascii) (r : str) :
  single_spaced b (a ++ x :: y :: r) = true ->
  is_space x = true -> is_space y = true -> False.
Proof.
  revert b. induction a as [|c a IH]; intros b H Hx Hy.
  - simpl in H. rewrite Hx, Hy in H.
    apply andb_prop in H as [_ H]. simpl in H. discriminate.
  - simpl in H. destruct (is_space c).
    + apply andb_prop in H as [_ H]. apply (IH true); assumption.
    + apply (IH false); assumption.
Qed.

Lemma word_not_upper (c : ascii) :
  is_word c || is_space c = true -> is_upper c = false ->
  (is_space c = true -> c = " "%char) ->
  is_lower c || is_digit c || Ascii.eqb c "_"%char || Ascii.eqb c " "%char = true.
Proof.
  destruct c as [[] [] [] [] [] [] [] []]; vm_compute; intros H1 H2 H3;
    try reflexivity; try discriminate;
    try (specialize (H3 eq_refl); discriminate).
Qed.

(** X6: the shape of every normalized name, whatever the input (absent
    included): it is made of lower-case letters, digits, underscores and
    spaces only; it neither begins nor ends with a space; and no two spaces
    follow each other. *)
Theorem preprocess_company_name_shape (name : option str) :
  Forall (fun c => is_lower c || is_digit c || Ascii.eqb c "_"%char || Ascii.eqb c " "%char = true)
         (preprocess_company_name name)
  /\ (forall c r, preprocess_company_name name = c :: r -> c <> " "%char)
  /\ (forall r c, preprocess_company_name name = r ++ [c] -> c <> " "%char)
  /\ (forall a b, preprocess_company_name name <> a ++ " "%char :: " "%char :: b).
Proof.
  destruct name as [s|].
  2:{ simpl. split; [constructor|]. split; [discriminate|].
      split; intros; destruct r || destruct a; discriminate. }
  pose proof (preprocess_no_upper s) as Hup.
  pose proof (preprocess_word_or_space s) as Hws.
  pose proof (preprocess_single_spaced s) as Hsp.
  pose proof (preprocess_stripped s) as Hst.
  set (n := preprocess_company_name (Some s)) in *.
  split; [|split; [|split]].
  - pose proof (single_spaced_spaces _ _ Hsp) as Hone.
    clear Hsp Hst. induction n as [|c n IH]; [constructor|].
    inversion Hup; inversion Hws; inversion Hone; subst.
    constructor; [apply word_not_upper; assumption|apply IH; assumption].
  - intros c r E. rewrite <- Hst in E. apply strip_first in E.
    intros ->. discriminate.
  - intros r c E. rewrite <- Hst in E. apply strip_last in E.
    intros ->. discriminate.
  - intros a b E. rewrite E in Hsp.
    apply (single_spaced_no_pair _ _ _ _ _ Hsp); reflexivity.
Qed.

(** X7: on ASCII names normalization does not depend on the case of the
    letters: the upper-case form and the lower-case form of a name
    normalize as the name itself does. *)
Theorem preprocess_company_name_ignores_case (s : str) :
  ascii_only s ->
  preprocess_company_name (Some (upper s)) = preprocess_company_name (Some s)
  /\ preprocess_company_name (Some (lower s)) = preprocess_company_name (Some s).
Proof.
  intros Hs. unfold preprocess_company_name.
  rewrite (lower_upper s Hs), lower_lower. auto.
Qed.

Lemma preprocess_company_name_ignores_case_witness :
  preprocess_company_name (Some (upper (py "Acme Widgets, Inc.")))
  = preprocess_company_name (Some (py "Acme Widgets, Inc."))
  /\ preprocess_company_name (Some (lower (py "Acme Widgets, Inc.")))
     = preprocess_company_name (Some (py "Acme Widgets, Inc.")).
Proof.
  apply (preprocess_company_name_ignores_case (py "Acme Widgets, Inc.")).
  unfold ascii_only. repeat constructor.
Defined.

(** *** When the legal suffix stays *)

Lemma match_alts_consumed (kws : list str) (rest r : str) :
  Forall (fun kw => exists pre x, kw = pre ++ [x] /\ is_word x = true) kws ->
  Re.match_alts kws rest = Some r ->
  Re.at_dollar r = true
  /\ exists pre x, rest = (pre ++ [x]) ++ r
                   /\ (is_word x = true \/ x = "."%char).
Proof.
  induction 1 as [|kw kws (pre & x & Hkw & Hx) Hk IH]; simpl; [discriminate|].
  destruct (Re.match_alt kw rest) as [r'|] eqn:E; [|exact IH].
  intros [= <-]. unfold Re.match_alt in E.
  destruct (startswith kw rest && _) eqn:Eg; [|discriminate].
  apply andb_prop in Eg as [Hs _].
  pose proof (startswith_app _ _ Hs) as Hrest.
  unfold Re.match_dot_dollar in E.
  destruct (skipn (length kw) rest) as [|c rest'] eqn:Es.
  - injection E as <-. split; [reflexivity|].
    exists pre, x. rewrite Hrest, <- Hkw. auto.
  - destruct ((code c =? 46)%N && Re.at_dollar rest') eqn:E1.
    + injection E as <-. apply andb_prop in E1 as [Hc Hd].
      split; [exact Hd|]. exists kw, c. split.
      * rewrite Hrest at 1. rewrite <- app_assoc. reflexivity.
      * right. apply N.eqb_eq in Hc. apply code_inj. exact Hc.
    + destruct (Re.at_dollar (c :: rest')) eqn:E2; [|discriminate].
      injection E as <-. split; [exact E2|].
      exists pre, x. rewrite Hrest at 1. rewrite <- Hkw. auto.
Qed.

Lemma legal_suffixes_end_in_word :
  Forall (fun kw => exists pre x, kw = pre ++ [x] /\ is_word x = true) Re.LEGAL_SUFFIXES.
Proof.
  unfold Re.LEGAL_SUFFIXES.
  repeat (constructor;
          [match goal with
           | |- exists pre x, ?kw = _ /\ _ =>
               exists (removelast kw), (List.last kw " "%char); split; reflexivity
           end|]).
  constructor.
Qed.

Lemma no_suffix_before (prev : option ascii) (s : str) (c : ascii) :
  is_word c = false -> c <> "."%char -> c <> "010"%char ->
  Re.search_suffix_from prev (s ++ [c]) = false.
Proof.
  intros Hw Hdot Hnl.
  assert (Hnone : forall p rest, Re.match_suffix_at p (rest ++ [c]) = None).
  { intros p rest. unfold Re.match_suffix_at.
    destruct (Re.word_boundary p (rest ++ [c])); [|reflexivity].
    destruct (Re.match_alts Re.LEGAL_SUFFIXES (rest ++ [c])) as [r|] eqn:E; [|reflexivity].
    exfalso.
    destruct (match_alts_consumed _ _ _ legal_suffixes_end_in_word E)
      as (Hd & pre & x & Hrest & Hx).
    destruct r as [|d [|d' r]]; simpl in Hd; try discriminate.
    - rewrite app_nil_r in Hrest. apply app_inj_tail in Hrest as [_ <-].
      destruct Hx as [Hx|Hx]; congruence.
    - apply N.eqb_eq in Hd.
      change ((pre ++ [x]) ++ [d]) with ((pre ++ [x]) ++ [d]) in Hrest.
      apply app_inj_tail in Hrest as [_ <-].
      apply Hnl. apply code_inj. exact Hd. }
  assert (Hstep : forall p a rest,
             Re.search_suffix_from p (a :: rest)
             = match Re.match_suffix_at p (a :: rest) with
               | Some _ => true
               | None => Re.search_suffix_from (Some a) rest
               end) by reflexivity.
  revert prev. induction s as [|a s IH]; intros prev.
  - change ([] ++ [c]) with [c]. rewrite Hstep.
    pose proof (Hnone prev []) as H0. change ([] ++ [c]) with [c] in H0.
    rewrite H0. cbn [Re.search_suffix_from].
    unfold Re.match_suffix_at. destruct (Re.word_boundary (Some c) []); reflexivity.
  - change ((a :: s) ++ [c]) with (a :: (s ++ [c])). rewrite Hstep.
    pose proof (Hnone prev (a :: s)) as H1.
    change ((a :: s) ++ [c]) with (a :: (s ++ [c])) in H1.
    rewrite H1. apply IH.
Qed.

(** X8: the legal suffix is taken off only when it ends the raw text.  When
    the name ends with a character that is neither a letter, a digit or an
    underscore, nor a full stop, nor a line feed (a trailing space, a
    comma, a bracket), the suffix step changes nothing and the name is
    normalized by the other steps alone. *)
Theorem preprocess_company_name_keeps_suffix (s : str) (c : ascii) :
  is_word c = false -> c <> "."%char -> c <> "010"%char ->
  Re.sub_suffix (lower (s ++ [c])) = lower (s ++ [c])
  /\ preprocess_company_name (Some (s ++ [c]))
     = strip (Re.sub_spaces (Re.sub_punctuation (strip (lower (s ++ [c]))))).
Proof.
  intros Hw Hdot Hnl.
  assert (Hc : lower_char c = c).
  { unfold lower_char. destruct (is_upper c) eqn:E; [|reflexivity].
    unfold is_word in Hw. rewrite E in Hw. discriminate. }
  assert (H : Re.sub_suffix (lower (s ++ [c])) = lower (s ++ [c])).
  { unfold Re.sub_suffix. apply sub_suffix_fixed.
    unfold lower. rewrite map_app. simpl. rewrite Hc.
    apply no_suffix_before; assumption. }
  split; [exact H|]. unfold preprocess_company_name. rewrite H. reflexivity.
Qed.

Lemma preprocess_company_name_keeps_suffix_witness :
  Re.sub_suffix (lower (py "Acme Inc" ++ [" "%char])) = lower (py "Acme Inc" ++ [" "%char])
  /\ preprocess_company_name (Some (py "Acme Inc" ++ [" "%char]))
     = strip (Re.sub_spaces (Re.sub_punctuation (strip (lower (py "Acme Inc" ++ [" "%char]))))).
Proof.
  apply (preprocess_company_name_keeps_suffix (py "Acme Inc") " "%char).
  - reflexivity.
  - discriminate.
  - discriminate.
Defined.

(** ** Market capitalization: case, and what is not understood *)

Lemma is_space_lower (c : ascii) : is_space (lower_char c) = is_space c.
Proof. destruct c as [[] [] [] [] [] [] [] []]; reflexivity. Qed.

Lemma is_space_upper (c : ascii) : is_space (upper_char c) = is_space c.
Proof. destruct c as [[] [] [] [] [] [] [] []]; reflexivity. Qed.

Lemma upper_lower_char (c : ascii) : upper_char (lower_char c) = upper_char c.
Proof. destruct c as [[] [] [] [] [] [] [] []]; reflexivity. Qed.

Lemma upper_char_idem (c : ascii) : upper_char (upper_char c) = upper_char c.
Proof. destruct c as [[] [] [] [] [] [] [] []]; reflexivity. Qed.

Lemma lstrip_map (f : ascii -> ascii) (s : str) :
  (forall c, is_space (f c) = is_space c) ->
  lstrip (map f s) = map f (lstrip s).
Proof.
  intros Hf. induction s as [|c s IH]; simpl; [reflexivity|].
  rewrite Hf. destruct (is_space c); [exact IH|reflexivity].
Qed.

Lemma strip_map (f : ascii -> ascii) (s : str) :
  (forall c, is_space (f c) = is_space c) ->
  strip (map f s) = map f (strip s).
Proof.
  intros Hf. unfold strip, rstrip.
  rewrite (lstrip_map f s Hf), <- map_rev, (lstrip_map f _ Hf), map_rev. reflexivity.
Qed.

(** X9: [clean_market_cap] does not depend on the case of the letters: a
    text, its lower-case form and its upper-case form give the same result,
    so that the suffixes [m] and [b] count as [M] and [B]. *)
Theorem clean_market_cap_ignores_case (v : str) :
  clean_market_cap (Some (lower v)) = clean_market_cap (Some v)
  /\ clean_market_cap (Some (upper v)) = clean_market_cap (Some v).
Proof.
  assert (Hl : upper (strip (lower v)) = upper (strip v)).
  { unfold lower, upper. rewrite (strip_map lower_char v is_space_lower), map_map.
    apply map_ext. intros c. apply upper_lower_char. }
  assert (Hu : upper (strip (upper v)) = upper (strip v)).
  { unfold upper. rewrite (strip_map upper_char v is_space_upper), map_map.
    apply map_ext. intros c. apply upper_char_idem. }
  unfold clean_market_cap. rewrite Hl, Hu. auto.
Qed.

(** *** The alphabet of [float] *)

Lemma span_digits_spec (s ds r : str) :
  PyFloat.span_digits s = (ds, r) ->
  s = ds ++ r /\ Forall (fun c => is_digit c = true) ds.
Proof.
  revert ds r. induction s as [|c s IH]; intros ds r; simpl.
  - intros [= <- <-]. split; [reflexivity|constructor].
  - destruct (is_digit c) eqn:E.
    + destruct (PyFloat.span_digits s) as [ds' r'].
      intros [= <- <-]. destruct (IH ds' r' eq_refl) as [-> H].
      split; [reflexivity|constructor; assumption].
    + intros [= <- <-]. split; [reflexivity|constructor].
Qed.

Lemma digits_numeric (ds : str) :
  Forall (fun c => is_digit c = true) ds -> Forall (fun c => numeric_char c = true) ds.
Proof.
  apply List.Forall_impl. intros c H. unfold numeric_char. rewrite H. reflexivity.
Qed.

Lemma parse_exponent_numeric (s : str) (e : Z) :
  PyFloat.parse_exponent s = Some e -> Forall (fun c => numeric_char c = true) s.
Proof.
  unfold PyFloat.parse_exponent. destruct s as [|c s1]; [constructor|].
  destruct (PyFloat.is_e c) eqn:Ec; [|discriminate].
  assert (Hc : numeric_char c = true).
  { unfold numeric_char. rewrite Ec. rewrite !orb_true_r. reflexivity. }
  assert (Hd : forall (s2 : str) (neg : bool),
             (let '(ds, rest) := PyFloat.span_digits s2 in
              match ds, rest with
              | _ :: _, [] => Some (if neg then - PyFloat.digits_value ds
                                    else PyFloat.digits_value ds)
              | _, _ => None
              end) = Some e ->
             Forall (fun c => numeric_char c = true) s2).
  { intros s2 neg. destruct (PyFloat.span_digits s2) as [ds rest] eqn:E.
    destruct (span_digits_spec _ _ _ E) as [-> H].
    destruct ds; [discriminate|]. destruct rest; [|discriminate].
    intros _. rewrite app_nil_r. apply digits_numeric, H. }
  destruct s1 as [|d s2].
  - intros H. constructor; [exact Hc|]. apply (Hd [] false H).
  - destruct (PyFloat.is_minus d) eqn:Em.
    + intros H. constructor; [exact Hc|]. constructor.
      * unfold numeric_char. rewrite Em. rewrite !orb_true_r. reflexivity.
      * apply (Hd s2 true H).
    + destruct (PyFloat.is_plus d) eqn:Ep.
      * intros H. constructor; [exact Hc|]. constructor.
        -- unfold numeric_char. rewrite Ep. rewrite !orb_true_r. reflexivity.
        -- apply (Hd s2 false H).
      * intros H. constructor; [exact Hc|]. apply (Hd (d :: s2) false H).
Qed.

Lemma keyword_special (s kw : str) :
  Forall (fun x => has_char x (py "infinityna") = true) kw ->
  PyFloat.ci_eqb s kw = true ->
  Forall (fun c => special_char c = true) s.
Proof.
  intros Hkw H. unfold PyFloat.ci_eqb in H. apply str_eqb_eq in H. subst kw.
  unfold lower in Hkw. induction s as [|c s IH]; [constructor|].
  change (map lower_char (c :: s)) with (lower_char c :: map lower_char s) in Hkw.
  inversion Hkw as [|? ? Hc Hs]; subst.
  constructor; [|apply IH, Hs].
  unfold special_char. rewrite Hc. reflexivity.
Qed.

Lemma parse_unsigned_alphabet (neg : bool) (s : str) (f : PyFloat.float) :
  PyFloat.parse_unsigned neg s = Some f ->
  Forall (fun c => numeric_char c = true) s \/ Forall (fun c => special_char c = true) s.
Proof.
  unfold PyFloat.parse_unsigned.
  destruct (PyFloat.ci_eqb s (py "inf")) eqn:E1.
  { intros _. right. apply (keyword_special s (py "inf")); [repeat constructor|exact E1]. }
  destruct (PyFloat.ci_eqb s (py "infinity")) eqn:E2.
  { intros _. right. apply (keyword_special s (py "infinity")); [repeat constructor|exact E2]. }
  destruct (PyFloat.ci_eqb s (py "nan")) eqn:E3.
  { intros _. right. apply (keyword_special s (py "nan")); [repeat constructor|exact E3]. }
  simpl. destruct (PyFloat.span_digits s) as [ip r1] eqn:Ei.
  destruct (span_digits_spec _ _ _ Ei) as [-> Hip].
  destruct (match r1 with
            | [] => ([], r1)
            | c :: r => if PyFloat.is_dot c then PyFloat.span_digits r else ([], r1)
            end) as [fp r2] eqn:Ef.
  destruct (app ip fp) as [|c0 ds0]; [discriminate|].
  destruct (PyFloat.parse_exponent r2) as [e|] eqn:Ee; [|discriminate].
  intros _. left. apply Forall_app. split; [apply digits_numeric, Hip|].
  pose proof (parse_exponent_numeric _ _ Ee) as Hr2.
  destruct r1 as [|c r].
  - injection Ef as <- <-. constructor.
  - destruct (PyFloat.is_dot c) eqn:Ed.
    + destruct (span_digits_spec _ _ _ Ef) as [-> Hfp].
      constructor.
      * unfold numeric_char. rewrite Ed. rewrite !orb_true_r. reflexivity.
      * apply Forall_app. split; [apply digits_numeric, Hfp|exact Hr2].
    + injection Ef as <- <-. exact Hr2.
Qed.

Lemma c_lstrip_back (P : ascii -> Prop) (s : str) :
  (forall c, PyFloat.c_isspace c = true -> P c) ->
  Forall P (PyFloat.c_lstrip s) -> Forall P s.
Proof.
  intros Hsp. induction s as [|c s IH]; simpl; [auto|].
  destruct (PyFloat.c_isspace c) eqn:E; [|auto].
  intros H. constructor; [apply Hsp, E|apply IH, H].
Qed.

Lemma filter_back (P : ascii -> Prop) (f : ascii -> bool) (s : str) :
  (forall c, f c = false -> P c) ->
  Forall P (List.filter f s) -> Forall P s.
Proof.
  intros Hf. induction s as [|c s IH]; simpl; [auto|].
  destruct (f c) eqn:E.
  - intros H. inversion H; subst. constructor; auto.
  - intros H. constructor; [apply Hf, E|apply IH, H].
Qed.

Lemma of_str_back (P : ascii -> bool) (s : str) :
  (forall c, PyFloat.c_isspace c = true -> P c = true) ->
  (forall c, PyFloat.is_underscore c = true -> P c = true) ->
  Forall (fun c => P c = true)
         (PyFloat.c_strip (List.filter (fun c => negb (PyFloat.is_underscore c)) s)) ->
  Forall (fun c => P c = true) s.
Proof.
  intros Hsp Hus H. unfold PyFloat.c_strip in H.
  apply (filter_back _ (fun c => negb (PyFloat.is_underscore c))).
  { intros c Hc. apply Hus. apply negb_false_iff in Hc. exact Hc. }
  apply (c_lstrip_back _ _ Hsp).
  apply Forall_rev in H. rewrite rev_involutive in H.
  apply (c_lstrip_back _ _ Hsp) in H.
  apply Forall_rev in H. rewrite rev_involutive in H. exact H.
Qed.

(** Whatever [float] accepts is written in one of its two alphabets. *)
Lemma of_str_alphabet (s : str) (f : PyFloat.float) :
  PyFloat.of_str s = Some f ->
  Forall (fun c => numeric_char c = true) s \/ Forall (fun c => special_char c = true) s.
Proof.
  unfold PyFloat.of_str.
  destruct (PyFloat.underscores_ok None s); [|discriminate].
  destruct (PyFloat.c_strip _) as [|c r] eqn:Eb; [discriminate|].
  assert (Hnum : Forall (fun c => numeric_char c = true) (c :: r) ->
                 Forall (fun c => numeric_char c = true) s).
  { intros H. apply (of_str_back numeric_char).
    - intros x Hx. unfold numeric_char. rewrite Hx. rewrite !orb_true_r. reflexivity.
    - intros x Hx. unfold numeric_char. rewrite Hx. rewrite !orb_true_r. reflexivity.
    - rewrite Eb. exact H. }
  assert (Hspec : Forall (fun c => special_char c = true) (c :: r) ->
                  Forall (fun c => special_char c = true) s).
  { intros H. apply (of_str_back special_char).
    - intros x Hx. unfold special_char. rewrite Hx. rewrite !orb_true_r. reflexivity.
    - intros x Hx. unfold special_char. rewrite Hx. rewrite !orb_true_r. reflexivity.
    - rewrite Eb. exact H. }
  destruct (PyFloat.is_minus c) eqn:Em.
  { intros H. destruct (parse_unsigned_alphabet _ _ _ H) as [Hr|Hr].
    - left. apply Hnum. constructor; [|exact Hr].
      unfold numeric_char. rewrite Em. rewrite !orb_true_r. reflexivity.
    - right. apply Hspec. constructor; [|exact Hr].
      unfold special_char. rewrite Em. rewrite !orb_true_r. reflexivity. }
  destruct (PyFloat.is_plus c) eqn:Ep.
  { intros H. destruct (parse_unsigned_alphabet _ _ _ H) as [Hr|Hr].
    - left. apply Hnum. constructor; [|exact Hr].
      unfold numeric_char. rewrite Ep. rewrite !orb_true_r. reflexivity.
    - right. apply Hspec. constructor; [|exact Hr].
      unfold special_char. rewrite Ep. rewrite !orb_true_r. reflexivity. }
  intros H. destruct (parse_unsigned_alphabet _ _ _ H) as [Hr|Hr]; auto.
Qed.

Lemma of_str_rejects (s : str) (c d : ascii) :
  In c s -> numeric_char c = false ->
  In d s -> special_char d = false ->
  PyFloat.of_str s = None.
Proof.
  intros Hc Hnc Hd Hsd.
  destruct (PyFloat.of_str s) as [f|] eqn:E; [|reflexivity]. exfalso.
  destruct (of_str_alphabet _ _ E) as [H|H];
    rewrite List.Forall_forall in H.
  - specialize (H c Hc). congruence.
  - specialize (H d Hd). congruence.
Qed.

Lemma In_lstrip (c : ascii) (s : str) :
  In c s -> is_space c = false -> In c (lstrip s).
Proof.
  intros H Hc. induction s as [|a s IH]; simpl; [destruct H|].
  destruct (is_space a) eqn:E.
  - destruct H as [->|H]; [congruence|apply IH, H].
  - exact H.
Qed.

Lemma In_strip (c : ascii) (s : str) :
  In c s -> is_space c = false -> In c (strip s).
Proof.
  intros H Hc. unfold strip, rstrip.
  apply in_rev in H. rewrite <- in_rev.
  apply In_lstrip; [|exact Hc]. rewrite <- in_rev.
  apply In_lstrip; [|exact Hc]. rewrite in_rev. exact H.
Qed.

Lemma In_remove_char (c x : ascii) (s : str) :
  In c s -> c <> x -> In c (remove_char x s).
Proof.
  intros H Hne. unfold remove_char. apply List.filter_In. split; [exact H|].
  apply negb_true_iff. apply Ascii.eqb_neq. exact Hne.
Qed.

(** A character that is not white space and is neither [$] nor [,] once
    in upper case is still there, in upper case, when the text reaches the
    suffix tests. *)
Lemma In_cleaned (c : ascii) (v : str) :
  In c v -> is_space c = false ->
  upper_char c <> "$"%char -> upper_char c <> ","%char ->
  In (upper_char c) (remove_char ","%char (remove_char "$"%char (upper (strip v)))).
Proof.
  intros H Hs H1 H2.
  apply In_remove_char; [|exact H2]. apply In_remove_char; [|exact H1].
  unfold upper. apply in_map. apply In_strip; assumption.
Qed.

Lemma digit_facts (d : ascii) :
  is_digit d = true ->
  upper_char d = d /\ is_space d = false /\ special_char d = false
  /\ d <> "$"%char /\ d <> ","%char /\ d <> "B"%char /\ d <> "M"%char.
Proof.
  destruct d as [[] [] [] [] [] [] [] []]; vm_compute; intros H;
    try discriminate; repeat split; discriminate.
Qed.

Lemma letter_facts (x : ascii) :
  is_letter x = true ->
  is_space x = false /\ upper_char x <> "$"%char /\ upper_char x <> ","%char
  /\ (upper_char x <> "E"%char -> numeric_char (upper_char x) = false).
Proof.
  destruct x as [[] [] [] [] [] [] [] []]; vm_compute; intros H;
    try discriminate; repeat split; try discriminate; intros; congruence.
Qed.

(** X10: only the letters B, M and E mean something next to a number.  For
    a text that holds a digit and a letter other than B, M and E, in either
    case ("750K", "1.5T", "USD 60M", "60 million"), [clean_market_cap]
    returns null. *)
Theorem clean_market_cap_foreign_letter (v : str) (d x : ascii) :
  In d v -> is_digit d = true ->
  In x v -> is_letter x = true ->
  upper_char x <> "B"%char -> upper_char x <> "M"%char -> upper_char x <> "E"%char ->
  clean_market_cap (Some v) = None.
Proof.
  intros Hd Hdig Hx Hlet HB HM HE.
  destruct (digit_facts d Hdig) as (Hdu & Hds & Hdsp & Hd1 & Hd2 & HdB & HdM).
  destruct (letter_facts x Hlet) as (Hxs & Hx1 & Hx2 & Hxn).
  specialize (Hxn HE).
  unfold clean_market_cap.
  assert (Hdv : In d (remove_char ","%char (remove_char "$"%char (upper (strip v))))).
  { rewrite <- Hdu. apply In_cleaned; rewrite ?Hdu; assumption. }
  assert (Hxv : In (upper_char x)
                   (remove_char ","%char (remove_char "$"%char (upper (strip v)))))
    by (apply In_cleaned; assumption).
  set (value := remove_char ","%char (remove_char "$"%char (upper (strip v)))) in *.
  destruct (has_char "B"%char value).
  - rewrite (of_str_rejects (remove_char "B"%char value) (upper_char x) d); auto using In_remove_char.
  - destruct (has_char "M"%char value).
    + rewrite (of_str_rejects (remove_char "M"%char value) (upper_char x) d); auto using In_remove_char.
    + apply (of_str_rejects value (upper_char x) d); assumption.
Qed.

Lemma clean_market_cap_foreign_letter_witness :
  clean_market_cap (Some (py "USD 60M")) = None.
Proof.
  apply (clean_market_cap_foreign_letter (py "USD 60M") "6"%char "U"%char).
  - simpl. tauto.
  - reflexivity.
  - simpl. tauto.
  - reflexivity.
  - discriminate.
  - discriminate.
  - discriminate.
Defined.

(** X11: B goes first.  When the text holds both a B and an M, in either
    case, the B is taken for the suffix, the M is left in the number and
    the result is null ("5MB", "1.2 bn m"). *)
Theorem clean_market_cap_both_suffixes (v : str) :
  In "B"%char (upper v) -> In "M"%char (upper v) ->
  clean_market_cap (Some v) = None.
Proof.
  intros HB HM.
  assert (Hin : forall c : ascii,
             In c (upper v) -> is_space c = false -> c <> "$"%char -> c <> ","%char ->
             In c (remove_char ","%char (remove_char "$"%char (upper (strip v))))).
  { intros c Hc Hs H1 H2.
    apply In_remove_char; [|exact H2]. apply In_remove_char; [|exact H1].
    unfold upper in *. rewrite <- (strip_map upper_char v is_space_upper).
    apply In_strip; assumption. }
  unfold clean_market_cap.
  pose proof (Hin "B"%char HB eq_refl ltac:(discriminate) ltac:(discriminate)) as HBv.
  pose proof (Hin "M"%char HM eq_refl ltac:(discriminate) ltac:(discriminate)) as HMv.
  set (value := remove_char ","%char (remove_char "$"%char (upper (strip v)))) in *.
  assert (Hhas : has_char "B"%char value = true).
  { unfold has_char. apply existsb_exists. exists "B"%char. split; [exact HBv|reflexivity]. }
  rewrite Hhas.
  rewrite (of_str_rejects (remove_char "B"%char value) "M"%char "M"%char);
    try reflexivity; apply In_remove_char; try exact HMv; discriminate.
Qed.

Lemma clean_market_cap_both_suffixes_witness :
  clean_market_cap (Some (py "5mb")) = None.
Proof.
  apply (clean_market_cap_both_suffixes (py "5mb")); simpl; tauto.
Defined.

(** ** Matching: what every matched record is *)

Lemma produced_fields (scorer : str -> str -> Z) (filtered : list company_row)
      (row : linkedin_row) (m : matched_connection) :
  In m (produced scorer filtered row) ->
  source_row m = row
  /\ Clean_Company m = preprocess_company_name (Company row)
  /\ Clean_Company m <> []
  /\ FUZZY_MATCH_THRESHOLD <= Match_Score m
  /\ exists best_match c,
       extractOne scorer (Clean_Company m) (target_company_names filtered)
       = Some (best_match, Match_Score m)
       /\ last_company best_match filtered = Some c
       /\ In c filtered
       /\ Matched_Company_Name m = Company_Name c
       /\ Matched_Market_Cap_USD m = Market_Cap_USD c.
Proof.
  unfold produced.
  destruct (truthy _) eqn:Ht; [|intros []].
  destruct (extractOne _ _ _) as [[b s]|] eqn:E; [|intros []].
  destruct (truthy b && _) eqn:Hg; [|intros []].
  destruct (last_company b filtered) as [c|] eqn:Ec; [|intros []].
  intros [<-|[]]. simpl.
  apply andb_prop in Hg as [_ Hge]. apply Z.geb_le in Hge.
  apply truthy_nonempty in Ht.
  destruct (last_company_last _ _ _ Ec) as (pre & post & Hf & _ & _).
  repeat split; try assumption.
  exists b, c. repeat split; try assumption.
  rewrite Hf. apply in_or_app. right. left. reflexivity.
Qed.

(** X12: every record that the matching loop makes, from the reference
    rows that passed the range filter, has a match score of at least
    [FUZZY_MATCH_THRESHOLD], a normalized company that is not empty and is
    that of its own source row, and the official name and the cap of one
    reference row of the input, a cap that lies in the range from
    [MIN_MARKET_CAP_USD] to [MAX_MARKET_CAP_USD]. *)
Theorem matched_record_guarantees (scorer : str -> str -> Z)
        (df_companies : list company_row) (df_linkedin : list linkedin_row)
        (ms : list matched_connection) (m : matched_connection) :
  match_connections scorer (df_companies_filtered df_companies) df_linkedin = Done ms ->
  In m ms ->
  In (source_row m) df_linkedin
  /\ Clean_Company m = preprocess_company_name (Company (source_row m))
  /\ Clean_Company m <> []
  /\ FUZZY_MATCH_THRESHOLD <= Match_Score m
  /\ in_cap_range (Matched_Market_Cap_USD m) = true
  /\ exists c : company_row,
       In c df_companies
       /\ Matched_Company_Name m = Company_Name c
       /\ Matched_Market_Cap_USD m = clean_market_cap (Market_Capitalization c).
Proof.
  rewrite match_connections_spec. intros [= <-] Hm.
  apply in_flat_map in Hm as (row & Hrow & Hm).
  destruct (produced_fields _ _ _ _ Hm)
    as (Hsrc & Hclean & Hne & Hscore & b & c & _ & _ & Hc & Hname & Hcap).
  unfold df_companies_filtered in Hc. apply List.filter_In in Hc as [Hc Hrange].
  subst row. repeat split; try assumption.
  - rewrite Hcap. exact Hrange.
  - exists c. auto.
Qed.

Lemma matched_record_guarantees_witness :
  In (source_row sample_match) sample_connections
  /\ Clean_Company sample_match = preprocess_company_name (Company (source_row sample_match))
  /\ Clean_Company sample_match <> []
  /\ FUZZY_MATCH_THRESHOLD <= Match_Score sample_match
  /\ in_cap_range (Matched_Market_Cap_USD sample_match) = true
  /\ exists c : company_row,
       In c sample_companies
       /\ Matched_Company_Name sample_match = Company_Name c
       /\ Matched_Market_Cap_USD sample_match = clean_market_cap (Market_Capitalization c).
Proof.
  apply (matched_record_guarantees exact_scorer sample_companies sample_connections
           sample_matches sample_match).
  - vm_compute. reflexivity.
  - vm_compute. tauto.
Defined.

Lemma produced_at_most_one (scorer : str -> str -> Z) (filtered : list company_row)
      (row : linkedin_row) :
  produced scorer filtered row = []
  \/ exists m, produced scorer filtered row = [m] /\ source_row m = row.
Proof.
  unfold produced.
  destruct (truthy _); [|auto].
  destruct (extractOne _ _ _) as [[b s]|]; [|auto].
  destruct (_ && _); [|auto].
  destruct (last_company _ _); [|auto].
  right. eexists. split; reflexivity.
Qed.

Lemma matched_rows_in_order_aux (scorer : str -> str -> Z)
      (filtered : list company_row) (df_linkedin : list linkedin_row) :
  sublist (map source_row (flat_map (produced scorer filtered) df_linkedin)) df_linkedin
  /\ (length (flat_map (produced scorer filtered) df_linkedin) <= length df_linkedin)%nat.
Proof.
  assert (H : sublist (map source_row (flat_map (produced scorer filtered) df_linkedin))
                      df_linkedin).
  { induction df_linkedin as [|row rows IH]; simpl; [constructor|].
    destruct (produced_at_most_one scorer filtered row) as [->|(m & -> & Hm)]; simpl.
    - apply sublist_cons, IH.
    - rewrite Hm. apply sublist_skip, IH. }
  split; [exact H|].
  apply sublist_length in H. rewrite length_map in H. exact H.
Qed.

(** X13: the loop keeps the order of the connections and makes at most one
    record for each: the source rows of the records, in the order of the
    records, are the input rows with some of them left out. *)
Theorem matched_rows_in_order (scorer : str -> str -> Z)
        (filtered : list company_row) (df_linkedin : list linkedin_row) :
  exists ms : list matched_connection,
    match_connections scorer filtered df_linkedin = Done ms
    /\ sublist (map source_row ms) df_linkedin
    /\ (length ms <= length df_linkedin)%nat.
Proof.
  exists (flat_map (produced scorer filtered) df_linkedin).
  split; [apply match_connections_spec|].
  apply matched_rows_in_order_aux.
Qed.

(** X14: the cache carries nothing from one row to the next that could be
    seen: matching a list of connections in one run gives the records of
    its first part followed by the records of its second part, each matched
    in a run of its own. *)
Theorem match_connections_app (scorer : str -> str -> Z)
        (filtered : list company_row) (first second : list linkedin_row) :
  match_connections scorer filtered (first ++ second)
  = match match_connections scorer filtered first,
          match_connections scorer filtered second with
    | Done a, Done b => Done (a ++ b)
    | _, _ => KeyError
    end.
Proof.
  rewrite !match_connections_spec, flat_map_app. reflexivity.
Qed.

(** X15: two connections with the same normalized company are matched
    alike: their records carry the same official name, the same cap and the
    same score. *)
Theorem same_company_same_match (scorer : str -> str -> Z)
        (filtered : list company_row) (df_linkedin : list linkedin_row)
        (ms : list matched_connection) (m1 m2 : matched_connection) :
  match_connections scorer filtered df_linkedin = Done ms ->
  In m1 ms -> In m2 ms ->
  Clean_Company m1 = Clean_Company m2 ->
  Matched_Company_Name m1 = Matched_Company_Name m2
  /\ Matched_Market_Cap_USD m1 = Matched_Market_Cap_USD m2
  /\ Match_Score m1 = Match_Score m2.
Proof.
  rewrite match_connections_spec. intros [= <-] H1 H2 E.
  apply in_flat_map in H1 as (r1 & _ & H1).
  apply in_flat_map in H2 as (r2 & _ & H2).
  destruct (produced_fields _ _ _ _ H1) as (_ & _ & _ & _ & b1 & c1 & E1 & L1 & _ & N1 & C1).
  destruct (produced_fields _ _ _ _ H2) as (_ & _ & _ & _ & b2 & c2 & E2 & L2 & _ & N2 & C2).
  rewrite E, E2 in E1. injection E1 as <- Hs.
  rewrite L2 in L1. injection L1 as <-.
  rewrite N1, N2, C1, C2. auto.
Qed.

Lemma same_company_same_match_witness :
  Matched_Company_Name sample_match
  = Matched_Company_Name (List.last sample_matches sample_match)
  /\ Matched_Market_Cap_USD sample_match
     = Matched_Market_Cap_USD (List.last sample_matches sample_match)
  /\ Match_Score sample_match = Match_Score (List.last sample_matches sample_match).
Proof.
  apply (same_company_same_match exact_scorer (df_companies_filtered sample_companies)
           sample_connections sample_matches).
  - vm_compute. reflexivity.
  - vm_compute. tauto.
  - vm_compute. tauto.
  - reflexivity.
Defined.

(** X16: the two dictionaries have the normalized reference names, and
    nothing else, for keys: a name is a key of [target_company_map], and of
    [market_cap_map], exactly when it is one of [target_company_names], so
    that a name chosen among these is found in both. *)
Theorem dictionaries_keys (filtered : list company_row) (key : str) :
  (In key (target_company_names filtered) <-> is_Some (target_company_map filtered !! key))
  /\ (In key (target_company_names filtered) <-> is_Some (market_cap_map filtered !! key)).
Proof.
  assert (H : In key (target_company_names filtered)
              <-> exists c, last_company key filtered = Some c).
  { split; [apply last_company_In|].
    intros [c Hc]. destruct (last_company_last _ _ _ Hc) as (pre & post & -> & Hk & _).
    unfold target_company_names. rewrite map_app. apply in_or_app. right. left. exact Hk. }
  rewrite target_company_map_lookup, market_cap_map_lookup, H.
  split; (split; [intros [c ->]; simpl; eauto|]);
    destruct (last_company key filtered) as [c|]; simpl;
    intros [x Hx]; try discriminate; eauto.
Qed.

(** ** The written market cap *)

Lemma digit_char_facts (d : Z) :
  0 <= d < 10 ->
  PyFloat.digit_value (digit_char d) = d /\ is_digit (digit_char d) = true.
Proof.
  intros H.
  assert (E : d = 0 \/ d = 1 \/ d = 2 \/ d = 3 \/ d = 4 \/ d = 5 \/ d = 6 \/ d = 7
              \/ d = 8 \/ d = 9) by lia.
  repeat (destruct E as [->|E]; [split; reflexivity|]). subst. split; reflexivity.
Qed.

Lemma digits_value_from (ds : str) (a : Z) :
  fold_left (fun acc c => 10 * acc + PyFloat.digit_value c) ds a
  = a * 10 ^ Z.of_nat (length ds) + PyFloat.digits_value ds.
Proof.
  unfold PyFloat.digits_value. revert a.
  induction ds as [|c ds IH]; intros a.
  - simpl. lia.
  - cbn [fold_left length]. rewrite (IH (10 * a + _)), (IH (10 * 0 + _)).
    rewrite Nat2Z.inj_succ, Z.pow_succ_r by lia. ring.
Qed.

Lemma digits_value_cons (c : ascii) (ds : str) :
  PyFloat.digits_value (c :: ds)
  = PyFloat.digit_value c * 10 ^ Z.of_nat (length ds) + PyFloat.digits_value ds.
Proof.
  unfold PyFloat.digits_value at 1. cbn [fold_left].
  rewrite digits_value_from. ring.
Qed.

Lemma decimal_digits_value (fuel : nat) (n : Z) (acc : str) :
  0 <= n < 2 ^ Z.of_nat fuel ->
  PyFloat.digits_value (decimal_digits fuel n acc)
  = n * 10 ^ Z.of_nat (length acc) + PyFloat.digits_value acc.
Proof.
  revert n acc. induction fuel as [|fuel IH]; intros n acc H.
  - simpl in *. assert (n = 0) by lia. subst. lia.
  - cbn [decimal_digits]. destruct (Z.ltb_spec n 10) as [Hlt|Hge].
    + rewrite digits_value_cons.
      destruct (digit_char_facts n) as [-> _]; [lia|]. reflexivity.
    + rewrite Nat2Z.inj_succ, Z.pow_succ_r in H by lia.
      rewrite IH.
      2:{ split; [apply Z.div_pos; lia|].
          apply Z.div_lt_upper_bound; lia. }
      rewrite digits_value_cons.
      destruct (digit_char_facts (n mod 10)) as [-> _].
      { apply Z.mod_pos_bound. lia. }
      cbn [length]. rewrite Nat2Z.inj_succ, Z.pow_succ_r by lia.
      pose proof (Z.div_mod n 10 ltac:(lia)) as E.
      rewrite E at 3. ring.
Qed.

Lemma decimal_digits_digits (fuel : nat) (n : Z) (acc : str) :
  0 <= n -> Forall (fun c => is_digit c = true) acc ->
  Forall (fun c => is_digit c = true) (decimal_digits fuel n acc).
Proof.
  revert n acc. induction fuel as [|fuel IH]; intros n acc Hn Hacc; [exact Hacc|].
  cbn [decimal_digits]. destruct (Z.ltb_spec n 10) as [Hlt|Hge].
  - constructor; [apply digit_char_facts; lia|exact Hacc].
  - apply IH; [apply Z.div_pos; lia|].
    constructor; [|exact Hacc]. apply digit_char_facts. apply Z.mod_pos_bound. lia.
Qed.

Lemma decimal_value (n : Z) : 0 <= n -> PyFloat.digits_value (decimal n) = n.
Proof.
  intros Hn. unfold decimal. rewrite decimal_digits_value.
  - simpl. unfold PyFloat.digits_value. simpl. lia.
  - split; [exact Hn|].
    rewrite Nat2Z.inj_succ, Z2Nat.id by apply Z.log2_nonneg.
    destruct (Z.eq_dec n 0) as [->|Hne]; [reflexivity|].
    apply Z.log2_spec. lia.
Qed.

Lemma decimal_digits_all (n : Z) :
  0 <= n -> Forall (fun c => is_digit c = true) (decimal n).
Proof. intros Hn. apply decimal_digits_digits; [exact Hn|constructor]. Qed.

Lemma decimal_digits_nonempty (fuel : nat) (n : Z) (acc : str) :
  acc <> [] -> decimal_digits fuel n acc <> [].
Proof.
  revert n acc. induction fuel as [|fuel IH]; intros n acc H; cbn [decimal_digits].
  - exact H.
  - destruct (n <? 10); [discriminate|]. apply IH. discriminate.
Qed.

Lemma decimal_nonempty (n : Z) : decimal n <> [].
Proof.
  unfold decimal. cbn [decimal_digits]. destruct (n <? 10); [discriminate|].
  apply decimal_digits_nonempty. discriminate.
Qed.

(** *** Grouping *)

Lemma group3_ind_length (P : str -> Prop) :
  (forall l, (length l <= 3)%nat -> P l) ->
  (forall a b c d l, P (d :: l) -> P (a :: b :: c :: d :: l)) ->
  forall l, P l.
Proof.
  intros Hsmall Hstep l.
  assert (H : forall n (k : str), (length k <= n)%nat -> P k).
  { induction n as [|n IH]; intros k Hk.
    - apply Hsmall. lia.
    - destruct k as [|a [|b [|c [|d k]]]]; try (apply Hsmall; simpl; lia).
      apply Hstep. apply IH. simpl in *. lia. }
  apply (H (length l)). lia.
Qed.

Lemma group3_Forall (P : ascii -> Prop) (l : str) :
  P ","%char -> Forall P l -> Forall P (group3 l).
Proof.
  intros Hc. revert l. apply (group3_ind_length (fun l => Forall P l -> Forall P (group3 l))).
  - intros l Hl H. destruct l as [|a [|b [|c [|d l]]]]; simpl in *; try exact H. lia.
  - intros a b c d l IH H.
    change (group3 (a :: b :: c :: d :: l))
      with (a :: b :: c :: ","%char :: group3 (d :: l)).
    inversion H as [|? ? Ha H1]; subst. inversion H1 as [|? ? Hb H2]; subst.
    inversion H2 as [|? ? Hc' H3]; subst.
    repeat constructor; auto.
Qed.

Lemma group3_remove (l : str) :
  remove_char ","%char (group3 l) = remove_char ","%char l.
Proof.
  revert l. apply (group3_ind_length
                     (fun l => remove_char ","%char (group3 l) = remove_char ","%char l)).
  - intros l Hl. destruct l as [|a [|b [|c [|d l]]]]; simpl in *; try reflexivity. lia.
  - intros a b c d l IH.
    change (group3 (a :: b :: c :: d :: l))
      with ([a; b; c] ++ [","%char] ++ group3 (d :: l)).
    change (a :: b :: c :: d :: l) with ([a; b; c] ++ d :: l).
    rewrite !remove_char_app, IH. reflexivity.
Qed.

Lemma remove_char_rev (x : ascii) (l : str) :
  remove_char x (rev l) = rev (remove_char x l).
Proof.
  unfold remove_char. induction l as [|a l IH]; simpl; [reflexivity|].
  rewrite List.filter_app, IH. simpl. destruct (negb (a =? x)%char); simpl.
  - reflexivity.
  - rewrite app_nil_r. reflexivity.
Qed.

Lemma thousands_remove (ds : str) :
  Forall (fun c => is_digit c = true) ds ->
  remove_char ","%char (thousands ds) = ds.
Proof.
  intros H. unfold thousands.
  rewrite remove_char_rev, group3_remove, remove_char_rev, rev_involutive.
  apply remove_char_absent. unfold has_char.
  induction H as [|c ds Hc Hds IH]; simpl; [reflexivity|].
  rewrite IH, orb_false_r.
  destruct c as [[] [] [] [] [] [] [] []]; try reflexivity; discriminate.
Qed.

Lemma thousands_Forall (P : ascii -> Prop) (ds : str) :
  P ","%char -> Forall P ds -> Forall P (thousands ds).
Proof.
  intros Hc H. unfold thousands. apply Forall_rev, group3_Forall; [exact Hc|].
  apply Forall_rev, H.
Qed.

(** *** Reading digits back *)

Lemma digit_char_class (c : ascii) :
  is_digit c = true ->
  PyFloat.is_underscore c = false /\ PyFloat.c_isspace c = false
  /\ PyFloat.is_minus c = false /\ PyFloat.is_plus c = false
  /\ lower_char c = c /\ plain_char c = true
  /\ Ascii.eqb "B" c = false /\ Ascii.eqb "M" c = false
  /\ Ascii.eqb c "$" = false /\ c <> "i"%char /\ c <> "n"%char.
Proof.
  destruct c as [[] [] [] [] [] [] [] []]; vm_compute; intros H;
    try discriminate; repeat split; discriminate.
Qed.

Lemma underscores_ok_digits (prev : option ascii) (ds : str) :
  PyFloat.opt_test PyFloat.is_underscore prev = false ->
  Forall (fun c => is_digit c = true) ds ->
  PyFloat.underscores_ok prev ds = true.
Proof.
  intros Hp H. revert prev Hp.
  induction H as [|c ds Hc Hds IH]; intros prev Hp; simpl.
  - rewrite Hp. reflexivity.
  - destruct (digit_char_class c Hc) as (Hu & _).
    rewrite Hu, Hc, orb_true_r. simpl. apply IH. simpl. exact Hu.
Qed.

Lemma span_digits_all (ds : str) :
  Forall (fun c => is_digit c = true) ds -> PyFloat.span_digits ds = (ds, []).
Proof.
  induction 1 as [|c ds Hc Hds IH]; simpl; [reflexivity|].
  rewrite Hc, IH. reflexivity.
Qed.

Lemma c_strip_digits (ds : str) :
  Forall (fun c => is_digit c = true) ds -> PyFloat.c_strip ds = ds.
Proof.
  intros H.
  assert (L : forall l : str, Forall (fun c => is_digit c = true) l -> PyFloat.c_lstrip l = l).
  { intros l Hl. destruct Hl as [|c l Hc _]; simpl; [reflexivity|].
    destruct (digit_char_class c Hc) as (_ & -> & _). reflexivity. }
  unfold PyFloat.c_strip. rewrite (L ds H), (L (rev ds)).
  - apply rev_involutive.
  - apply Forall_rev, H.
Qed.

Lemma of_decimal_zero_exponent (p : positive) :
  PyFloat.of_decimal false p 0 = PyFloat.of_int (Z.pos p).
Proof.
  unfold PyFloat.of_decimal, PyFloat.of_int.
  change (Z.to_pos (10 ^ 0)) with 1%positive. rewrite Pos.mul_1_r. reflexivity.
Qed.

Lemma digits_value_nonneg (ds : str) :
  Forall (fun c => is_digit c = true) ds -> 0 <= PyFloat.digits_value ds.
Proof.
  intros H. unfold PyFloat.digits_value.
  assert (Hnn : forall (l : str) (a : Z), 0 <= a ->
                  Forall (fun c => is_digit c = true) l ->
                  0 <= fold_left (fun acc c => 10 * acc + PyFloat.digit_value c) l a).
  { induction l as [|x l IH]; intros a Ha Hl; simpl; [exact Ha|].
    inversion Hl as [|? ? Hx Hl']; subst. apply IH; [|exact Hl'].
    assert (0 <= PyFloat.digit_value x); [|lia].
    unfold PyFloat.digit_value. unfold is_digit, in_range in Hx.
    apply andb_prop in Hx as [Hx _]. apply N.leb_le in Hx. lia. }
  apply Hnn; [lia|exact H].
Qed.

(** [float] on a run of digits is the integer that they spell. *)
Lemma of_str_digits (ds : str) :
  ds <> [] -> Forall (fun c => is_digit c = true) ds ->
  PyFloat.of_str ds = Some (PyFloat.of_int (PyFloat.digits_value ds)).
Proof.
  intros Hne H. unfold PyFloat.of_str.
  rewrite (underscores_ok_digits None ds eq_refl H).
  assert (Hf : List.filter (fun c => negb (PyFloat.is_underscore c)) ds = ds).
  { clear Hne. induction H as [|c ds Hc Hds IH]; simpl; [reflexivity|].
    destruct (digit_char_class c Hc) as (-> & _). simpl. rewrite IH. reflexivity. }
  rewrite Hf, (c_strip_digits ds H).
  pose proof (digits_value_nonneg ds H) as Hpos.
  destruct ds as [|c r]; [contradiction|].
  inversion H as [|? ? Hc Hr]; subst.
  destruct (digit_char_class c Hc) as (_ & _ & -> & -> & Hl & _ & _ & _ & _ & Hi & Hn).
  unfold PyFloat.parse_unsigned.
  assert (Hno : forall (kw : str) (k : ascii), c <> k ->
                  PyFloat.ci_eqb (c :: r) (k :: kw) = false).
  { intros kw k Hk. unfold PyFloat.ci_eqb, str_eqb.
    apply bool_decide_eq_false_2. unfold lower. simpl. rewrite Hl.
    intros [= E _]. contradiction. }
  assert (H1 : PyFloat.ci_eqb (c :: r) (py "inf") = false)
    by exact (Hno (py "nf") "i"%char Hi).
  assert (H2 : PyFloat.ci_eqb (c :: r) (py "infinity") = false)
    by exact (Hno (py "nfinity") "i"%char Hi).
  assert (H3 : PyFloat.ci_eqb (c :: r) (py "nan") = false)
    by exact (Hno (py "an") "n"%char Hn).
  rewrite H1, H2, H3.
  cbn [orb]. rewrite (span_digits_all (c :: r) H).
  rewrite app_nil_r. cbn [PyFloat.parse_exponent length].
  change (0 - Z.of_nat 0) with 0.
  destruct (PyFloat.digits_value (c :: r)) as [|p|p] eqn:Ev.
  - reflexivity.
  - rewrite of_decimal_zero_exponent. reflexivity.
  - lia.
Qed.

(** *** Integers that a float holds exactly *)

Lemma digits2_lower (p : positive) : 2 ^ (Z.pos (digits2_pos p) - 1) <= Z.pos p.
Proof.
  induction p as [p IH|p IH|]; simpl digits2_pos.
  - rewrite Pos2Z.inj_succ.
    replace (Z.succ (Z.pos (digits2_pos p)) - 1) with (Z.succ (Z.pos (digits2_pos p) - 1)) by lia.
    rewrite Z.pow_succ_r by lia. lia.
  - rewrite Pos2Z.inj_succ.
    replace (Z.succ (Z.pos (digits2_pos p)) - 1) with (Z.succ (Z.pos (digits2_pos p) - 1)) by lia.
    rewrite Z.pow_succ_r by lia. lia.
  - simpl. lia.
Qed.

Lemma digits2_bound (p : positive) :
  Z.pos p < 2 ^ 53 -> Z.pos (digits2_pos p) <= 53.
Proof.
  intros H. pose proof (digits2_lower p) as L.
  destruct (Z_le_gt_dec (Z.pos (digits2_pos p)) 53) as [Hle|Hgt]; [exact Hle|].
  exfalso.
  assert (2 ^ 53 <= 2 ^ (Z.pos (digits2_pos p) - 1)) by (apply Z.pow_le_mono_r; lia).
  lia.
Qed.

Lemma iter_xO_value (p k : positive) :
  Z.pos (Pos.iter xO p k) = Z.pos p * 2 ^ Z.pos k
  /\ Z.pos (digits2_pos (Pos.iter xO p k)) = Z.pos (digits2_pos p) + Z.pos k.
Proof.
  induction k as [|k [IH1 IH2]] using Pos.peano_ind.
  - simpl. split; lia.
  - rewrite Pos.iter_succ. cbn [digits2_pos]. split.
    + rewrite Pos2Z.inj_xO, IH1, Pos2Z.inj_succ, Z.pow_succ_r by lia. ring.
    + rewrite !Pos2Z.inj_succ, IH2. lia.
Qed.

Lemma shr_fexp_canonical (m : positive) (e : Z) (l : location) :
  Z.pos (digits2_pos m) = 53 -> -1074 <= e ->
  shr_fexp 53 1024 (Z.pos m) e l = (shr_record_of_loc (Z.pos m) l, e).
Proof.
  intros Hd He. unfold shr_fexp, fexp, emin, Zdigits2. rewrite Hd.
  replace (Z.max (53 + e - 53) (3 - 1024 - 53) - e) with 0 by lia.
  reflexivity.
Qed.

Lemma binary_round_aux_canonical (m : positive) (e : Z) :
  Z.pos (digits2_pos m) = 53 -> -1074 <= e <= 971 ->
  binary_round_aux 53 1024 false (Z.pos m) e loc_Exact = S754_finite false m e.
Proof.
  intros Hd He. unfold binary_round_aux.
  rewrite (shr_fexp_canonical m e loc_Exact Hd) by lia.
  cbn [shr_record_of_loc shr_m loc_of_shr_record round_nearest_even].
  rewrite (shr_fexp_canonical m e loc_Exact Hd) by lia.
  cbn [shr_record_of_loc shr_m].
  replace (e <=? 1024 - 53) with true; [reflexivity|].
  symmetry. apply Z.leb_le. lia.
Qed.

(** An integer below [2^53] is held exactly by the float made of it. *)
Lemma of_int_exact (z : Z) :
  0 < z < 2 ^ 53 -> PyFloat.holds_int (PyFloat.of_int z) z = true.
Proof.
  intros [Hpos Hlt]. destruct z as [|p|p]; try lia.
  pose proof (digits2_bound p Hlt) as Hd.
  unfold PyFloat.of_int, PyFloat.prec, PyFloat.emax, binary_normalize, binary_round.
  unfold shl_align, fexp, emin.
  replace (Z.max (Z.pos (digits2_pos p) + 0 - 53) (3 - 1024 - 53) - 0)
    with (Z.pos (digits2_pos p) - 53) by lia.
  replace (Z.max (Z.pos (digits2_pos p) + 0 - 53) (3 - 1024 - 53))
    with (Z.pos (digits2_pos p) - 53) by lia.
  destruct (Z.pos (digits2_pos p) - 53) as [|k|k] eqn:Ek; try lia.
  - rewrite binary_round_aux_canonical by lia.
    unfold PyFloat.holds_int. apply Z.eqb_eq. simpl. lia.
  - destruct (iter_xO_value p k) as [Hv Hdig].
    rewrite binary_round_aux_canonical by lia.
    unfold PyFloat.holds_int. apply Z.eqb_eq.
    rewrite Hv. rewrite Pos2Z.inj_pow. reflexivity.
Qed.

Lemma round_half_even_exact (s : bool) (m : positive) (e : Z) (z : Z) :
  0 < z -> PyFloat.holds_int (S754_finite s m e) z = true ->
  s = false /\ round_half_even m e = z.
Proof.
  intros Hz H. unfold PyFloat.holds_int in H. unfold round_half_even.
  destruct e as [|k|k]; apply Z.eqb_eq in H.
  - destruct s; [lia|]. split; [reflexivity|]. lia.
  - destruct s; [pose proof (Z.pow_pos_nonneg 2 (Z.pos k)); nia|].
    split; [reflexivity|exact H].
  - destruct s; [lia|]. split; [reflexivity|].
    cbv zeta. rewrite H, Z.div_mul, Z.mod_mul by lia.
    simpl. reflexivity.
Qed.

Lemma format_market_cap_exact (f : PyFloat.float) (z : Z) :
  0 < z -> PyFloat.holds_int f z = true ->
  format_market_cap (Some f) = "$"%char :: thousands (decimal z).
Proof.
  intros Hz H. destruct f as [s|s| |s m e].
  - simpl in H. apply Z.eqb_eq in H. lia.
  - discriminate.
  - discriminate.
  - destruct (round_half_even_exact s m e z Hz H) as [-> Hr].
    unfold format_market_cap, format_comma_0f, minus_sign. rewrite Hr. reflexivity.
Qed.

Lemma written_cap_read_back (z : Z) :
  0 < z ->
  clean_market_cap (Some ("$"%char :: thousands (decimal z))) = Some (PyFloat.of_int z).
Proof.
  intros Hz.
  pose proof (decimal_digits_all z ltac:(lia)) as Hds.
  assert (Hplain : Forall (fun c => plain_char c = true) ("$"%char :: thousands (decimal z))).
  { constructor; [reflexivity|]. apply thousands_Forall; [reflexivity|].
    eapply List.Forall_impl; [|exact Hds]. intros c Hc. apply digit_char_class, Hc. }
  assert (Hn : remove_char ","%char (remove_char "$"%char ("$"%char :: thousands (decimal z)))
               = decimal z).
  { change (remove_char "$"%char ("$"%char :: thousands (decimal z)))
      with (remove_char "$"%char (thousands (decimal z))).
    rewrite (remove_char_absent "$"%char).
    - apply thousands_remove, Hds.
    - assert (HF : Forall (fun c => c <> "$"%char) (thousands (decimal z))).
      { apply thousands_Forall; [discriminate|].
        eapply List.Forall_impl; [|exact Hds]. intros c Hc ->. discriminate. }
      unfold has_char. apply not_true_is_false. intros E.
      apply existsb_exists in E as (c & Hc & Ec). apply Ascii.eqb_eq in Ec. subst c.
      rewrite List.Forall_forall in HF. apply (HF _ Hc). reflexivity. }
  assert (Hno : forall x : ascii, is_digit x = false -> has_char x (decimal z) = false).
  { intros x Hx. unfold has_char. apply not_true_is_false. intros E.
    apply existsb_exists in E as (c & Hc & Ec). apply Ascii.eqb_eq in Ec. subst c.
    rewrite List.Forall_forall in Hds. specialize (Hds x Hc). congruence. }
  unfold clean_market_cap.
  rewrite (cleaned_value_plain _ Hplain), Hn.
  rewrite (Hno "B"%char eq_refl), (Hno "M"%char eq_refl).
  rewrite (of_str_digits (decimal z) (decimal_nonempty z) Hds).
  rewrite decimal_value by lia. reflexivity.
Qed.

(** X17: what is written can be read back.  For a cap of a whole number
    of dollars between 1 and [2^53 - 1], the text that the output formatter
    writes ("$55,300,000") is a text from which [clean_market_cap] gets
    the same cap again. *)
Theorem market_cap_round_trip (z : Z) :
  0 < z < 2 ^ 53 ->
  format_market_cap (Some (PyFloat.of_int z)) = "$"%char :: thousands (decimal z)
  /\ clean_market_cap (Some (format_market_cap (Some (PyFloat.of_int z))))
     = Some (PyFloat.of_int z).
Proof.
  intros Hz.
  pose proof (format_market_cap_exact _ z ltac:(lia) (of_int_exact z Hz)) as E.
  split; [exact E|]. rewrite E. apply written_cap_read_back. lia.
Qed.

Lemma market_cap_round_trip_witness :
  format_market_cap (Some (PyFloat.of_int 55300000)) = "$"%char :: thousands (decimal 55300000)
  /\ clean_market_cap (Some (format_market_cap (Some (PyFloat.of_int 55300000))))
     = Some (PyFloat.of_int 55300000).
Proof.
  apply (market_cap_round_trip 55300000). lia.
Defined.

(** ** The whole script *)

Lemma potential_contacts_In (ms : list matched_connection) (r : scored_connection) :
  In r (df_potential_contacts ms)
  <-> In r (map with_seniority ms) /\ MIN_SENIORITY_SCORE <= Seniority_Score r.
Proof.
  unfold df_potential_contacts, df_matched_sorted, sort_values, df_matched.
  rewrite List.filter_In.
  assert (Hperm : forall l : list scored_connection,
             In r (merge_sort sort_key_le l) <-> In r l).
  { intros l. rewrite <- !list_elem_of_In.
    rewrite (merge_sort_Permutation sort_key_le l). reflexivity. }
  rewrite Hperm, List.filter_In, Z.geb_le, Z.geb_le.
  unfold MIN_SENIORITY_SCORE. intuition lia.
Qed.

Lemma potential_contacts_length (ms : list matched_connection) :
  (length (df_potential_contacts ms) <= length ms)%nat.
Proof.
  unfold df_potential_contacts, df_matched_sorted, sort_values, df_matched.
  etransitivity; [apply List.filter_length_le|].
  rewrite (Permutation_length (merge_sort_Permutation sort_key_le _)).
  etransitivity; [apply List.filter_length_le|].
  rewrite length_map. reflexivity.
Qed.

Lemma in_range_formatted (cap : option PyFloat.float) :
  in_cap_range cap = true ->
  exists f, cap = Some f /\ format_market_cap cap = "$"%char :: format_comma_0f f.
Proof.
  destruct cap as [f|]; [|discriminate].
  intros H. exists f. split; [reflexivity|].
  destruct f; try reflexivity. discriminate.
Qed.

(** X18: the end of the script.  It never ends with a failed dictionary
    lookup.  When it hands a table to [to_csv], the table is not empty and
    has at most one row for each connection; every row of it comes from a
    connection of the input, with the score of that connection's position,
    a score of at least [MIN_SENIORITY_SCORE]; and it names a reference
    company of the input whose cap parses to a number in the range, that
    number being written after a dollar sign: the text [N/A] is never
    written. *)
Theorem main_saves_leads (scorer : str -> str -> Z)
        (df_linkedin : list linkedin_row) (df_companies : list company_row) :
  match main scorer df_linkedin df_companies with
  | Raised_KeyError => False
  | Saved leads =>
      leads <> []
      /\ (length leads <= length df_linkedin)%nat
      /\ Forall
           (fun lead =>
              MIN_SENIORITY_SCORE <= out_Seniority_Score lead
              /\ (exists row : linkedin_row,
                     In row df_linkedin
                     /\ out_Company lead = Company row
                     /\ out_Position lead = Position row
                     /\ out_Seniority_Score lead = assign_seniority_score (Position row))
              /\ (exists (c : company_row) (f : PyFloat.float),
                     In c df_companies
                     /\ clean_market_cap (Market_Capitalization c) = Some f
                     /\ in_cap_range (Some f) = true
                     /\ out_Matched_Company_Name lead = Company_Name c
                     /\ out_Matched_Market_Cap_USD lead = "$"%char :: format_comma_0f f))
           leads
  | _ => True
  end.
Proof.
  unfold main.
  destruct (df_companies_filtered df_companies) as [|c0 cs] eqn:Ef; [exact I|].
  rewrite match_connections_spec.
  set (ms := flat_map (produced scorer (c0 :: cs)) df_linkedin).
  assert (Hms : match_connections scorer (c0 :: cs) df_linkedin = Done ms)
    by apply match_connections_spec.
  destruct ms as [|m0 ms'] eqn:Ems; [exact I|]. rewrite <- Ems in *.
  destruct (df_matched ms) as [|s0 ss]; [exact I|].
  destruct (df_potential_contacts ms) as [|r0 rs] eqn:Ep; [exact I|].
  rewrite <- Ep. split; [rewrite Ep; discriminate|]. split.
  - rewrite length_map. etransitivity; [apply potential_contacts_length|].
    destruct (matched_rows_in_order_aux scorer (c0 :: cs) df_linkedin) as [_ H].
    exact H.
  - apply List.Forall_forall. intros lead Hlead.
    apply in_map_iff in Hlead as (r & <- & Hr).
    apply potential_contacts_In in Hr as [Hr Hscore].
    apply in_map_iff in Hr as (m & <- & Hm).
    subst ms. apply in_flat_map in Hm as (row & Hrow & Hm).
    destruct (produced_fields _ _ _ _ Hm)
      as (Hsrc & _ & _ & _ & b & c & _ & _ & Hc & Hname & Hcap).
    rewrite <- Ef in Hc. unfold df_companies_filtered in Hc.
    apply List.filter_In in Hc as [Hc Hrange].
    destruct (in_range_formatted _ Hrange) as (f & Hf & Hfmt).
    simpl. split; [exact Hscore|]. split.
    + exists row. rewrite Hsrc. auto.
    + exists c, f. unfold Market_Cap_USD in Hf.
      rewrite Hcap, Hname. unfold Market_Cap_USD in *. rewrite Hf in *. auto.
Qed.

(** ** Names and titles without content *)

Lemma is_word_lower (c : ascii) : is_word (lower_char c) = is_word c.
Proof. destruct c as [[] [] [] [] [] [] [] []]; reflexivity. Qed.

Lemma sub_spaces_blank (b : bool) (s : str) :
  Forall (fun c => is_space c = true) s ->
  Re.sub_spaces_from b s = [] \/ Re.sub_spaces_from b s = [" "%char].
Proof.
  intros H. revert b. induction H as [|c s Hc Hs IH]; intros b; simpl; [auto|].
  rewrite Hc. destruct b.
  - apply IH.
  - right. f_equal.
    assert (Ht : forall l : str, Forall (fun c => is_space c = true) l ->
                   Re.sub_spaces_from true l = []).
    { induction 1 as [|x l Hx Hl IHl]; simpl; [reflexivity|]. rewrite Hx. exact IHl. }
    apply Ht, Hs.
Qed.

(** X19: a company name without any letter, digit or underscore (only
    punctuation and white space, or nothing) normalizes to the empty
    string, as an absent name does, so that the matching loop passes the
    connection over. *)
Theorem preprocess_company_name_blank (scorer : str -> str -> Z)
        (filtered : list company_row) (row : linkedin_row) (s : str) :
  Company row = Some s ->
  Forall (fun c => is_word c = false) s ->
  preprocess_company_name (Some s) = []
  /\ match_connections scorer filtered [row] = Done [].
Proof.
  intros Hrow H.
  assert (E : preprocess_company_name (Some s) = []).
  { unfold preprocess_company_name.
    assert (Hl : Forall (fun c => is_word c = false) (lower s)).
    { clear Hrow. unfold lower. induction H as [|c s' Hc Hs IH]; simpl;
        [constructor|constructor; [rewrite is_word_lower; exact Hc|exact IH]]. }
    pose proof (strip_Forall _ _ (sub_suffix_Forall _ None _ Hl)) as Hs.
    fold (Re.sub_suffix (lower s)) in Hs.
    assert (Hp : Forall (fun c => is_space c = true)
                        (Re.sub_punctuation (strip (Re.sub_suffix (lower s))))).
    { unfold Re.sub_punctuation.
      induction Hs as [|c x Hc Hx IH]; simpl; [constructor|].
      rewrite Hc. simpl. destruct (is_space c) eqn:Esp; [constructor; assumption|exact IH]. }
    unfold Re.sub_spaces.
    destruct (sub_spaces_blank false _ Hp) as [-> | ->]; reflexivity. }
  split; [exact E|].
  rewrite match_connections_spec. cbn [flat_map]. rewrite app_nil_r.
  unfold produced. rewrite Hrow, E. reflexivity.
Qed.

Lemma preprocess_company_name_blank_witness :
  preprocess_company_name (Some (py " - / - ")) = []
  /\ match_connections exact_scorer (df_companies_filtered sample_companies)
       [contact (Some " - / - ") "CEO"] = Done [].
Proof.
  apply (preprocess_company_name_blank exact_scorer (df_companies_filtered sample_companies)
           (contact (Some " - / - ") "CEO") (py " - / - ")).
  - reflexivity.
  - repeat constructor.
Defined.

Lemma search_word_from_contains (prev : option ascii) (kw s : str) :
  Re.search_word_from prev kw s = true -> contains kw s = true.
Proof.
  revert prev. induction s as [|c s IH]; intros prev; simpl.
  - rewrite !orb_false_r. unfold Re.match_word_at.
    intros H. apply andb_prop in H as [H _]. apply andb_prop in H as [_ H]. exact H.
  - intros H. apply orb_prop in H as [H|H].
    + unfold Re.match_word_at in H.
      apply andb_prop in H as [H _]. apply andb_prop in H as [_ H].
      rewrite H. reflexivity.
    + rewrite (IH _ H). apply orb_true_r.
Qed.

Lemma bestPositive_attained (table : list (str * Z)) (t : str) :
  0 < bestPositive table t ->
  exists (keyword : str) (weight : Z),
    In (keyword, weight) table
    /\ Re.search_word keyword (lower t) = true
    /\ weight = bestPositive table t.
Proof.
  unfold bestPositive. induction table as [|[kw w] table IH]; cbn [List.filter fst].
  - cbn. lia.
  - destruct (Re.search_word kw (lower t)) eqn:E.
    + cbn [map snd fold_right]. intros H.
      destruct (Z.max_spec w (fold_right Z.max 0
                  (map snd (List.filter
                     (fun kv => Re.search_word (fst kv) (lower t)) table))))
        as [[Hlt Emax]|[Hle Emax]]; rewrite Emax in *.
      * destruct (IH H) as (k & v & Hin & Hm & Hv).
        exists k, v. split; [right; exact Hin|]. split; assumption.
      * exists kw, w. split; [left; reflexivity|]. split; [exact E|reflexivity].
    + intros H. destruct (IH H) as (k & v & Hin & Hm & Hv).
      exists k, v. split; [right; exact Hin|]. split; assumption.
Qed.

(** X20: no score without a keyword.  A title that scores above 0 holds
    one of the positive keywords as a whole word, hence as a substring of
    its lower-case form, and its score is at most the weight of that
    keyword. *)
Theorem positive_score_has_keyword (t : str) :
  0 < assign_seniority_score (Some t) ->
  exists (keyword : str) (weight : Z),
    In (keyword, weight) SENIORITY_KEYWORDS
    /\ Re.search_word keyword (lower t) = true
    /\ contains keyword (lower t) = true
    /\ assign_seniority_score (Some t) <= weight.
Proof.
  intros Hpos.
  assert (Hbest : 0 < bestPositive SENIORITY_KEYWORDS t
                  /\ assign_seniority_score (Some t) <= bestPositive SENIORITY_KEYWORDS t).
  { revert Hpos. rewrite assign_seniority_score_unfold, penaltyTotal_terms.
    pose proof (seniority_weights_range t). cbv zeta.
    destruct (contains (py "assistant to") (lower t)),
             (contains (py "intern") (lower t)),
             (contains (py "former") (lower t)),
             (contains (py "ex-") (lower t));
      repeat match goal with
             | |- context [?a >? ?b] => destruct (Z.gtb_spec a b)
             | |- context [?a >=? ?b] => destruct (Z.geb_spec a b)
             end; lia. }
  destruct Hbest as [Hb Hle].
  destruct (bestPositive_attained SENIORITY_KEYWORDS t Hb) as (kw & w & Htab & Hmatch & Hw).
  exists kw, w. split; [exact Htab|]. split; [exact Hmatch|]. split.
  - apply (search_word_from_contains None), Hmatch.
  - rewrite Hw. exact Hle.
Qed.

Lemma positive_score_has_keyword_witness :
  exists (keyword : str) (weight : Z),
    In (keyword, weight) SENIORITY_KEYWORDS
    /\ Re.search_word keyword (lower (py "VP of Sales")) = true
    /\ contains keyword (lower (py "VP of Sales")) = true
    /\ assign_seniority_score (Some (py "VP of Sales")) <= weight.
Proof.
  apply (positive_score_has_keyword (py "VP of Sales")). vm_compute. reflexivity.
Defined.
